(** * Emby content watchdog: tailing, rule matching and rate limiting

    A shallow embedding of [emby_content_watchdog.py] and the properties of
    its rule loader, rate limiter, action dispatcher and tailing loop.

    Conventions of the embedding.
    - Timestamps ([time.time()], Python floats) are exact rationals [Q];
      [rate_limit_seconds] and the watch duration are Python ints, [Z].
      Comparing a float with an int is exact in Python; subtracting a
      float from an int converts the int first, which raises
      [OverflowError] when it is out of range ([fits_float]).
    - The process-wide dict [recent_refresh] is a [gmap] keyed by
      [(item_id, rule_name)]; it lives in the [world] that every function
      threads, together with the trace of effects (service-log records, HTTP
      requests, sleeps) in the order the program performs them.
    - What belongs to the Python runtime and not to the repository ([re],
      [json.load], [int] on strings) is a parameter, the class [PyRuntime].
    - Exceptions are values: a call that may raise returns a sum or an
      option, and every [try]/[except] of the source is a [match].
    - A session is followed on its own: what it observes of the outside
      (the clock, [readline], the retention sweep of the service logs, the
      answers of the Emby server) is an input, one [tick] per pass of the
      loop, and a session whose ticks run out before it returns is
      [Running].
    - Rule entries of rules.json are dicts whose name, pattern, action and
      level are strings when present, and text is ASCII. *)

From Stdlib Require Import ZArith QArith Lqa Bool Ascii String.
From stdpp Require Import gmap strings list.

Local Open Scope Z_scope.

(** ** Python values that reach the program through JSON *)

(** A value that [json.load] can put under an optional key. Containers only
    matter through their length (truthiness) here. *)
Inductive pyval :=
| PNone
| PBool (b : bool)
| PInt (z : Z)
| PFloat (q : Q)
| PNonFinite
| PStr (s : string)
| PContainer (len : nat).

(** Exceptions the program catches; their rendering by [str(e)] is not
    modelled. *)
Inductive pyexn :=
| KeyError (key : string)
| ReError (pat : string)
| IntError (v : pyval)
| OSError (msg : string)
| JSONDecodeError (msg : string)
| URLError (msg : string)
| OverflowError (n : Z).

(** [bool(v)] *)
Definition py_bool (v : pyval) : bool :=
  match v with
  | PNone => false
  | PBool b => b
  | PInt z => negb (z =? 0)
  | PFloat q => negb (Qeq_bool q 0)
  | PNonFinite => true
  | PStr s => negb (String.eqb s "")
  | PContainer len => negb (Nat.eqb len 0)
  end.

(** [int(x)] on a finite float: truncation towards zero. *)
Definition Qtrunc (q : Q) : Z := Z.quot (Qnum q) (Zpos (Qden q)).

(** An int that arithmetic with a float can convert: one that rounds to a
    finite double. From [2^1024 - 2^970] on, in absolute value, the
    conversion raises [OverflowError]. *)
Definition fits_float (n : Z) : bool := Z.abs n <? 2 ^ 1024 - 2 ^ 970.

(** ** Rule entries and global settings, as parsed from rules.json *)

(** An entry of the ["rules"] list, a dict with optional keys. Names,
    patterns, actions and levels are strings when present;
    [rate_limit_seconds], which the loader converts with [int], is any
    value. *)
Record Rule := {
  r_name : option string;
  r_pattern : option string;
  r_action : option string;
  r_rate_limit_seconds : option pyval;
  r_level : option string
}.

(** The ["global"] object. *)
Record GlobalCfg := {
  stop_on_first_action : option pyval;
  rule_reload_seconds : option pyval
}.

(** The parsed document: [cfg.get("rules")] and [cfg.get("global")]. *)
Record config := {
  cfg_rules : option (list Rule);
  cfg_global : option GlobalCfg
}.

(** ** The Python runtime the program runs on *)

Class PyRuntime := {
  (** compiled pattern objects *)
  regex : Type;
  (** [re.compile(pattern)]; [None] when it raises [re.error] *)
  re_compile : string -> option regex;
  (** [p.search(line)]: [None] for no match, otherwise the match object,
      given by its named groups ([m.group(k)]) *)
  re_search : regex -> string -> option (string -> option string);
  (** the module constants [ITEMID_RE] and [NAME_RE] *)
  ITEMID_RE : regex;
  NAME_RE : regex;
  (** [int(s)] on a string; [None] when it raises [ValueError] *)
  int_of_str : string -> option Z;
  (** [json.load] on the text of rules.json, [inl] when it raises *)
  json_load : string -> pyexn + config;
  (** the directory of the script, [Path(__file__).resolve().parent] *)
  SCRIPT_DIR : string
}.

(** ** Service log and effects *)

Inductive dval :=
| DNone
| DStr (s : string)
| DInt (z : Z)
| DExn (e : pyexn)
| DRule (r : Rule).

Definition dopt (o : option string) : dval :=
  match o with Some s => DStr s | None => DNone end.

(** One line of the service log: [write_log(event, details)] with the
    [_level] entry popped out of [details] (default ["INFO"]). The leading
    wall-clock stamp of the line is not modelled. *)
Record log_record := {
  lr_level : string;
  lr_event : string;
  lr_details : list (string * dval)
}.

Inductive http_outcome :=
| HttpResponse (code : Z)      (* urlopen returned; resp.getcode() *)
| HttpError (code : Z)         (* urllib.error.HTTPError, e.code *)
| HttpTransport (e : pyexn).   (* any other exception of urlopen *)

Inductive effect :=
| ELog (r : log_record)
| EPost (url : string)
| ESleep (seconds : Q).

(** The mutable state shared by every function: the rate-limit cache
    keyed by [(item_id, rule_name)] and the effects performed so far. *)
Record world := {
  recent_refresh : gmap (string * string) Q;
  trace : list effect
}.

Definition write_log (event : string) (lvl : string)
    (details : list (string * dval)) (w : world) : world :=
  {| recent_refresh := recent_refresh w;
     trace := trace w ++ [ELog {| lr_level := lvl; lr_event := event;
                                  lr_details := details |}] |}.

Definition set_cache (m : gmap (string * string) Q) (w : world) : world :=
  {| recent_refresh := m; trace := trace w |}.

Definition emit (e : effect) (w : world) : world :=
  {| recent_refresh := recent_refresh w; trace := trace w ++ [e] |}.

(** What opening a file yields: [FileNotFoundError], another exception, or
    the open file. *)
Inductive open_result (A : Type) :=
| NotFound
| OpenRaises (e : pyexn)
| Opened (a : A).
Arguments NotFound {A}.
Arguments OpenRaises {A} e.
Arguments Opened {A} a.

(** ** User configuration constants *)

Definition EMBY_SERVER : string := "http://127.0.0.1:8096".
Definition EMBY_API_KEY : string := "api_key".

(** [os.path.basename] on a POSIX path: what follows the last slash. *)
Fixpoint base_aux (acc : string) (s : string) : string :=
  match s with
  | EmptyString => acc
  | String c s' =>
      if Ascii.eqb c "/"%char then base_aux s' s' else base_aux acc s'
  end.

Definition base (file_path : string) : string := base_aux file_path file_path.

(** ** Observations on a trace *)

(** The [ActionCalled] records: one per action the tailer dispatched. *)
Definition is_action_called (e : effect) : bool :=
  match e with
  | ELog r => String.eqb (lr_event r) "ActionCalled"
  | _ => false
  end.

Definition actions_called (tr : list effect) : list effect :=
  List.filter is_action_called tr.

(** The HTTP requests sent to the Emby server. *)
Definition is_post (e : effect) : bool :=
  match e with
  | EPost _ => true
  | _ => false
  end.

Definition posts (tr : list effect) : list effect := List.filter is_post tr.

(** Whitespace of [str.strip], and of [\s] in a pattern, among the ASCII
    characters. *)
Definition is_space (c : ascii) : bool :=
  let n := nat_of_ascii c in
  ((9 <=? n)%nat && (n <=? 13)%nat) || ((28 <=? n)%nat && (n <=? 32)%nat).

(** ** A small runtime to run the program on concrete inputs

    Patterns made of letters, digits, spaces and underscores only, for which
    [re.search] is substring search; the two extraction patterns of the
    module; decimal literals for [int]; and two documents for [json.load].
    On the inputs used in this file it agrees with CPython; elsewhere it
    answers "error", and nothing below relies on that. *)
Module Toy.

Definition dq : string := String (ascii_of_nat 34) EmptyString.

Definition is_digit (c : ascii) : bool :=
  let n := nat_of_ascii c in (48 <=? n)%nat && (n <=? 57)%nat.

Definition is_word (c : ascii) : bool :=
  let n := nat_of_ascii c in
  is_digit c || ((65 <=? n)%nat && (n <=? 90)%nat)
  || ((97 <=? n)%nat && (n <=? 122)%nat) || (n =? 32)%nat || (n =? 95)%nat.

Fixpoint all_chars (f : ascii -> bool) (s : string) : bool :=
  match s with
  | EmptyString => true
  | String c s' => f c && all_chars f s'
  end.

Fixpoint strip_prefix (p s : string) : option string :=
  match p, s with
  | EmptyString, _ => Some s
  | String a p', String b s' =>
      if Ascii.eqb a b then strip_prefix p' s' else None
  | String _ _, EmptyString => None
  end.

Fixpoint skip (f : ascii -> bool) (s : string) : string :=
  match s with
  | String c s' => if f c then skip f s' else s
  | EmptyString => EmptyString
  end.

Fixpoint span (f : ascii -> bool) (s : string) : string :=
  match s with
  | String c s' => if f c then String c (span f s') else EmptyString
  | EmptyString => EmptyString
  end.

(** The key, a colon between optional blanks, and what follows. *)
Definition after_key (key s : string) : option string :=
  match strip_prefix (dq +:+ key +:+ dq) s with
  | Some s1 =>
      match strip_prefix ":" (skip is_space s1) with
      | Some s2 => Some (skip is_space s2)
      | None => None
      end
  | None => None
  end.

(** [ITEMID_RE] anchored at the head of [s]: group [id]. *)
Definition itemid_here (s : string) : option string :=
  match after_key "ItemId" s with
  | Some s1 =>
      let s2 := match strip_prefix dq s1 with Some t => t | None => s1 end in
      match span is_digit s2 with
      | EmptyString => None
      | ds => Some ds
      end
  | None => None
  end.

(** [NAME_RE] anchored at the head of [s]: group [name]. *)
Definition name_here (s : string) : option string :=
  match after_key "Name" s with
  | Some s1 =>
      match strip_prefix dq s1 with
      | Some s2 =>
          let not_dq := λ c, negb (Ascii.eqb c (ascii_of_nat 34)) in
          match span not_dq s2, skip not_dq s2 with
          | String c v, String _ _ => Some (String c v)
          | _, _ => None
          end
      | None => None
      end
  | None => None
  end.

(** Leftmost match. *)
Fixpoint search (here : string -> option string) (s : string)
    : option string :=
  match here s with
  | Some g => Some g
  | None =>
      match s with
      | String _ s' => search here s'
      | EmptyString => None
      end
  end.

Inductive toy_regex :=
| Literal (s : string)
| ItemId
| Name.

Definition toy_search (p : toy_regex) (line : string)
    : option (string -> option string) :=
  match p with
  | Literal s =>
      match index 0 s line with
      | Some _ => Some (λ _, None)
      | None => None
      end
  | ItemId =>
      match search itemid_here line with
      | Some g => Some (λ k, if String.eqb k "id" then Some g else None)
      | None => None
      end
  | Name =>
      match search name_here line with
      | Some g => Some (λ k, if String.eqb k "name" then Some g else None)
      | None => None
      end
  end.

Definition toy_compile (s : string) : option toy_regex :=
  if all_chars is_word s then Some (Literal s) else None.

Fixpoint digits_value (acc : Z) (s : string) : Z :=
  match s with
  | EmptyString => acc
  | String c s' => digits_value (10 * acc + Z.of_nat (nat_of_ascii c - 48)) s'
  end.

Definition toy_int (s : string) : option Z :=
  match s with
  | EmptyString => None
  | _ => if all_chars is_digit s then Some (digits_value 0 s) else None
  end.

(** A document with three rule entries: a complete one, one whose
    [rate_limit_seconds] is [null], and one whose pattern is an unbalanced
    parenthesis. *)
Definition rules_text : string :=
  "{" +:+ dq +:+ "rules" +:+ dq +:+ ": ["
  +:+ "{" +:+ dq +:+ "name" +:+ dq +:+ ": " +:+ dq +:+ "A" +:+ dq +:+ ", "
          +:+ dq +:+ "pattern" +:+ dq +:+ ": " +:+ dq +:+ "ERROR" +:+ dq +:+ "}, "
  +:+ "{" +:+ dq +:+ "name" +:+ dq +:+ ": " +:+ dq +:+ "B" +:+ dq +:+ ", "
          +:+ dq +:+ "pattern" +:+ dq +:+ ": " +:+ dq +:+ "occurred" +:+ dq +:+ ", "
          +:+ dq +:+ "rate_limit_seconds" +:+ dq +:+ ": null}, "
  +:+ "{" +:+ dq +:+ "name" +:+ dq +:+ ": " +:+ dq +:+ "C" +:+ dq +:+ ", "
          +:+ dq +:+ "pattern" +:+ dq +:+ ": " +:+ dq +:+ "(" +:+ dq +:+ ", "
          +:+ dq +:+ "action" +:+ dq +:+ ": " +:+ dq +:+ "notify" +:+ dq +:+ "}]}".

Definition rules_doc : config :=
  {| cfg_rules := Some
       [ {| r_name := Some "A"; r_pattern := Some "ERROR"; r_action := None;
            r_rate_limit_seconds := None; r_level := None |};
         {| r_name := Some "B"; r_pattern := Some "occurred"; r_action := None;
            r_rate_limit_seconds := Some PNone; r_level := None |};
         {| r_name := Some "C"; r_pattern := Some "("; r_action := Some "notify";
            r_rate_limit_seconds := None; r_level := None |} ];
     cfg_global := None |}.

Definition toy_json_load (text : string) : pyexn + config :=
  if String.eqb text rules_text then inr rules_doc
  else if String.eqb text "{}" then
    inr {| cfg_rules := None; cfg_global := None |}
  else inl (JSONDecodeError text).

Definition runtime : PyRuntime :=
  {| regex := toy_regex;
     re_compile := toy_compile;
     re_search := toy_search;
     ITEMID_RE := ItemId;
     NAME_RE := Name;
     int_of_str := toy_int;
     json_load := toy_json_load;
     SCRIPT_DIR := "/opt/watchdog" |}.

End Toy.

Section Watchdog.

Context `{RT : PyRuntime}.

(** ** Compiled rules *)

Record CompiledRule := {
  name : string;
  pattern : regex;
  action : string;
  rate_limit_seconds : Z;
  level : string
}.

(** ** Rate limiter *)

(** [next((r["rate_limit_seconds"] for r in rules if r["name"] == rule_name), 300)] *)
Fixpoint ttl_of (rules : list CompiledRule) (rule_name : string) : Z :=
  match rules with
  | [] => 300
  | r :: rules' =>
      if String.eqb (name r) rule_name then rate_limit_seconds r
      else ttl_of rules' rule_name
  end.

(** [(now - ts) >= ttl] *)
Definition elapsed (now ts : Q) (ttl : Z) : bool :=
  Qle_bool (inject_Z ttl) (now - ts).

(** The first loop of [cleanup_cache]: the keys to expire. *)
Definition expired_keys (now : Q) (rules : list CompiledRule)
    (m : gmap (string * string) Q) : list (string * string) :=
  (map_to_list m) ≫= (λ kv,
    if elapsed now kv.2 (ttl_of rules kv.1.2) then [kv.1] else []).

(** The second loop: [recent_refresh.pop(key, None)] for each of them. *)
Definition pop_all (keys : list (string * string))
    (m : gmap (string * string) Q) : gmap (string * string) Q :=
  foldl (λ acc k, delete k acc) m keys.

Definition cleanup_cache (now : Q) (rules : list CompiledRule) (w : world)
    : world :=
  set_cache (pop_all (expired_keys now rules (recent_refresh w))
               (recent_refresh w)) w.

Definition can_fire (item_id : string) (rule : CompiledRule) (now : Q)
    (w : world) : bool :=
  match recent_refresh w !! (item_id, name rule) with
  | None => true
  | Some last_ts => elapsed now last_ts (rate_limit_seconds rule)
  end.

Definition mark_fired (item_id : string) (rule : CompiledRule) (now : Q)
    (w : world) : world :=
  set_cache (<[(item_id, name rule) := now]> (recent_refresh w)) w.

(** ** Rule compiler: [load_rules] *)

Definition RULES_PATH : string := SCRIPT_DIR +:+ "/rules.json".

Definition default_global : GlobalCfg :=
  {| stop_on_first_action := Some (PBool true);
     rule_reload_seconds := Some (PInt 60) |}.

(** [int(x)]; [None] when it raises ([TypeError], [ValueError] or
    [OverflowError]). *)
Definition py_int (v : pyval) : option Z :=
  match v with
  | PNone => None
  | PBool b => Some (if b then 1 else 0)
  | PInt z => Some z
  | PFloat q => Some (Qtrunc q)
  | PNonFinite => None
  | PStr s => int_of_str s
  | PContainer _ => None
  end.

(** The dict display inside the [try] of the loop, evaluated key by key in
    source order; [inl] is the exception that leaves it. *)
Definition compile_rule (r : Rule) : pyexn + CompiledRule :=
  match r_name r with
  | None => inl (KeyError "name")
  | Some n =>
      match r_pattern r with
      | None => inl (KeyError "pattern")
      | Some p =>
          match re_compile p with
          | None => inl (ReError p)
          | Some rx =>
              let v := default (PInt 300) (r_rate_limit_seconds r) in
              match py_int v with
              | None => inl (IntError v)
              | Some z =>
                  inr {| name := n;
                         pattern := rx;
                         action := default "refresh_metadata" (r_action r);
                         rate_limit_seconds := z;
                         level := default "WARN" (r_level r) |}
              end
          end
      end
  end.

(** [for r in rules: try: compiled.append(...) except Exception: ...] *)
Fixpoint compile_rules (rules : list Rule) (compiled : list CompiledRule)
    (w : world) : list CompiledRule * world :=
  match rules with
  | [] => (compiled, w)
  | r :: rules' =>
      match compile_rule r with
      | inr c => compile_rules rules' (compiled ++ [c]) w
      | inl e =>
          compile_rules rules' compiled
            (write_log "RuleCompileError" "ERROR"
               [("rule", DRule r); ("error", DExn e)] w)
      end
  end.

Definition rules_load_error (e : pyexn) (w : world)
    : (list CompiledRule * GlobalCfg) * world :=
  (([], default_global),
   write_log "RulesLoadError" "ERROR" [("error", DExn e); ("trace", DExn e)] w).

Definition load_rules (src : open_result string) (w : world)
    : (list CompiledRule * GlobalCfg) * world :=
  match src with
  | NotFound =>
      (([], default_global),
       write_log "RulesNotFound" "ERROR" [("path", DStr RULES_PATH)] w)
  | OpenRaises e => rules_load_error e w
  | Opened text =>
      match json_load text with
      | inl e => rules_load_error e w
      | inr cfg =>
          let rules := default [] (cfg_rules cfg) in
          let global_cfg := default default_global (cfg_global cfg) in
          let '(compiled, w1) := compile_rules rules [] w in
          ((compiled, global_cfg),
           write_log "RulesLoaded" "INFO"
             [("count", DInt (Z.of_nat (length compiled)))] w1)
      end
  end.

(** ** Action dispatcher *)

(** The network: the outcome of [urlopen] on a URL, which may depend on
    everything that happened before the call. *)
Variable net : list effect -> string -> http_outcome.

Definition refresh_url (item_id : string) : string :=
  EMBY_SERVER +:+ "/Items/" +:+ item_id +:+ "/Refresh"
  +:+ "?api_key=" +:+ EMBY_API_KEY
  +:+ "&MetadataRefreshMode=FullRefresh&ReplaceAllMetadata=true&ReplaceAllImages=false".

Definition call_emby_refresh (item_id : string) (w : world) : Z * world :=
  let url := refresh_url item_id in
  let w1 := emit (EPost url) w in
  match net (trace w) url with
  | HttpResponse code => (code, w1)
  | HttpError code => (code, w1)
  | HttpTransport e =>
      (0, write_log "ApiTransportError" "ERROR"
            [("item_id", DStr item_id); ("error", DExn e)] w1)
  end.

Definition perform_action (act : string) (item_id : string)
    (nm : option string) (w : world) : Z * world :=
  if String.eqb act "refresh_metadata" then call_emby_refresh item_id w
  else (0, write_log "UnknownAction" "ERROR" [("action", DStr act)] w).

(** ** Tailer: [tail_file] *)

(** The locals [item_id] and [name] of a session. *)
Record session := {
  sess_item_id : option string;
  sess_name : option string
}.

(** How the body of the [for] loop over the rules is left. *)
Inductive control :=
| Continue
| Return
| Raise (e : pyexn).

Fixpoint lstrip (s : string) : string :=
  match s with
  | String c s' => if is_space c then lstrip s' else s
  | EmptyString => EmptyString
  end.

Fixpoint rstrip (s : string) : string :=
  match s with
  | String c s' =>
      match rstrip s' with
      | EmptyString => if is_space c then EmptyString else String c EmptyString
      | t => String c t
      end
  | EmptyString => EmptyString
  end.

(** [line.strip()[:200]] *)
Definition line_snippet (line : string) : string :=
  substring 0 200 (rstrip (lstrip line)).

(** [if not item_id]: the id when it is neither [None] nor empty. *)
Definition known_item_id (s : session) : option string :=
  match sess_item_id s with
  | Some id => if String.eqb id "" then None else Some id
  | None => None
  end.

(** Lines 174-180: the newest extraction wins. *)
Definition scan_line (line : string) (s : session) : session :=
  let item_id :=
    match re_search ITEMID_RE line with
    | Some m_id => m_id "id"
    | None => sess_item_id s
    end in
  let nm :=
    match re_search NAME_RE line with
    | Some m_name => m_name "name"
    | None => sess_name s
    end in
  {| sess_item_id := item_id; sess_name := nm |}.

Definition rule_matched_details (filepath line : string) (s : session)
    (rule : CompiledRule) : list (string * dval) :=
  [("file", DStr filepath); ("rule", DStr (name rule));
   ("level", DStr (level rule));
   ("item_id", dopt (sess_item_id s)); ("name", dopt (sess_name s));
   ("line_snippet", DStr (line_snippet line))].

Definition action_called_details (filepath : string) (rule : CompiledRule)
    (item_id : string) (nm : option string) (status : Z)
    : list (string * dval) :=
  [("rule", DStr (name rule)); ("action", DStr (action rule));
   ("file", DStr (base filepath)); ("item_id", DStr item_id);
   ("name", dopt nm); ("status_code", DInt status)].

Definition skipped_ttl_details (filepath : string) (rule : CompiledRule)
    (item_id : string) (nm : option string) (wait_left : Z)
    : list (string * dval) :=
  [("rule", DStr (name rule)); ("file", DStr filepath);
   ("item_id", DStr item_id); ("name", dopt nm);
   ("wait_left_s", DInt wait_left)].

Definition skipped_no_item_id_details (filepath : string)
    (rule : CompiledRule) : list (string * dval) :=
  [("rule", DStr (name rule)); ("file", DStr filepath)].

(** Lines 196-210: the branch on [can_fire] for one matched rule. In the
    rate-limited branch, [ttl - (now - last)] is float arithmetic: the int
    [ttl] is converted first, which raises when it is out of range. *)
Definition fire_or_skip (filepath : string) (now : Q) (item_id : string)
    (nm : option string) (rule : CompiledRule) (w : world) : control * world :=
  if can_fire item_id rule now w then
    let '(status, w1) := perform_action (action rule) item_id nm w in
    let w2 := mark_fired item_id rule now w1 in
    (Continue,
     write_log "ActionCalled" "INFO"
       (action_called_details filepath rule item_id nm status) w2)
  else
    let ttl := rate_limit_seconds rule in
    match recent_refresh w !! (item_id, name rule) with
    | None => (Raise (KeyError (name rule)), w)
    | Some last_ts =>
        if fits_float ttl then
          let wait_left := Qtrunc (inject_Z ttl - (now - last_ts)) in
          (Continue,
           write_log "ActionSkippedTTL" "INFO"
             (skipped_ttl_details filepath rule item_id nm wait_left) w)
        else (Raise (OverflowError ttl), w)
    end.

(** Lines 182-213: [for rule in compiled_rules]. *)
Fixpoint match_rules (filepath : string) (stop : bool) (now : Q)
    (line : string) (s : session) (rules : list CompiledRule) (w : world)
    : control * world :=
  match rules with
  | [] => (Continue, w)
  | rule :: rest =>
      match re_search (pattern rule) line with
      | None => match_rules filepath stop now line s rest w
      | Some _ =>
          let w1 :=
            write_log "RuleMatched" "INFO"
              (rule_matched_details filepath line s rule) w in
          match known_item_id s with
          | None =>
              match_rules filepath stop now line s rest
                (write_log "ActionSkippedNoItemId" "WARN"
                   (skipped_no_item_id_details filepath rule) w1)
          | Some item_id =>
              match fire_or_skip filepath now item_id (sess_name s) rule w1 with
              | (Continue, w2) =>
                  if stop then (Return, w2)
                  else match_rules filepath stop now line s rest w2
              | (c, w2) => (c, w2)
              end
          end
      end
  end.

(** What one pass of the [while True] loop observes: the clock, the service
    logs that the retention sweep deletes or fails on, and what [readline]
    gives (the empty string when no line is available). *)
Record tick := {
  tk_now : Q;
  tk_retention : list (string * option pyexn);
  tk_readline : pyexn + string
}.

Definition cleanup_service_logs (swept : list (string * option pyexn))
    (w : world) : world :=
  foldl (λ acc pr,
    match pr.2 with
    | None => write_log "LogRetentionDelete" "INFO" [("path", DStr pr.1)] acc
    | Some e =>
        write_log "LogRetentionError" "ERROR"
          [("path", DStr pr.1); ("error", DExn e)] acc
    end) w swept.

(** How a session ends; [Running] is a session whose observations ran out
    before it returned. *)
Inductive exit :=
| ExitTimeout
| ExitStop
| ExitNotFound
| ExitError
| Running.

Inductive step :=
| Next (s : session) (w : world)
| Exit (e : exit) (s : session) (w : world).

Definition unhandled (filepath : string) (e : pyexn) (w : world) : world :=
  write_log "WatchUnhandledError" "ERROR"
    [("file", DStr (base filepath)); ("error", DExn e); ("trace", DExn e)] w.

(** Lines 162-163: the two sweeps at the head of every pass. *)
Definition housekeeping (compiled_rules : list CompiledRule) (tk : tick)
    (w : world) : world :=
  cleanup_service_logs (tk_retention tk)
    (cleanup_cache (tk_now tk) compiled_rules w).

(** One pass of the [while True] loop, lines 161-213. *)
Definition tail_step (filepath : string) (timeout : Z)
    (compiled_rules : list CompiledRule) (stop : bool) (start : Q)
    (tk : tick) (s : session) (w : world) : step :=
  let now := tk_now tk in
  let w2 := housekeeping compiled_rules tk w in
  if elapsed now start timeout then
    Exit ExitTimeout s (write_log "WatchTimeout" "INFO" [("file", DStr filepath)] w2)
  else
    match tk_readline tk with
    | inl e => Exit ExitError s (unhandled filepath e w2)
    | inr line =>
        if String.eqb line "" then Next s (emit (ESleep 0.25) w2)
        else
          let s' := scan_line line s in
          match match_rules filepath stop now line s' compiled_rules w2 with
          | (Continue, w3) => Next s' w3
          | (Return, w3) => Exit ExitStop s' w3
          | (Raise e, w3) => Exit ExitError s' (unhandled filepath e w3)
          end
    end.

Fixpoint tail_loop (filepath : string) (timeout : Z)
    (compiled_rules : list CompiledRule) (stop : bool) (start : Q)
    (ticks : list tick) (s : session) (w : world) : exit * session * world :=
  match ticks with
  | [] => (Running, s, w)
  | tk :: ticks' =>
      match tail_step filepath timeout compiled_rules stop start tk s w with
      | Next s' w' =>
          tail_loop filepath timeout compiled_rules stop start ticks' s' w'
      | Exit e s' w' => (e, s', w')
      end
  end.

(** [tail_file]; [start] is the clock at line 152, [opened] what [open]
    does, [ticks] what the passes of the loop observe. *)
Definition tail_file (filepath : string) (timeout : Z)
    (compiled_rules : list CompiledRule) (global_cfg : GlobalCfg)
    (start : Q) (opened : open_result unit) (ticks : list tick) (w : world)
    : exit * session * world :=
  let w0 :=
    write_log "WatchStart" "INFO"
      [("file", DStr (base filepath)); ("timeout_s", DInt timeout)] w in
  let s0 := {| sess_item_id := None; sess_name := None |} in
  let stop_on_first :=
    py_bool (default (PBool true) (stop_on_first_action global_cfg)) in
  match opened with
  | NotFound =>
      (ExitNotFound, s0,
       write_log "WatchFileNotFound" "ERROR" [("file", DStr (base filepath))] w0)
  | OpenRaises e => (ExitError, s0, unhandled filepath e w0)
  | Opened _ =>
      tail_loop filepath timeout compiled_rules stop_on_first start ticks s0 w0
  end.

(** ** Vocabulary of the statements *)

(** What the [if stop_on_first_action: return] of line 212 makes of the way
    the branch above it was left. *)
Definition stop_after (c : control) : control :=
  match c with
  | Continue => Return
  | other => other
  end.

Definition step_world (st : step) : world :=
  match st with
  | Next _ w => w
  | Exit _ _ w => w
  end.

(** The records of a line whose rules are all skipped for want of an item
    id: for each rule that matches, in order, [RuleMatched] and then
    [ActionSkippedNoItemId]. *)
Definition skip_records (filepath line : string) (s : session)
    (rules : list CompiledRule) : list effect :=
  rules ≫= (λ rule,
    match re_search (pattern rule) line with
    | Some _ =>
        [ELog {| lr_level := "INFO"; lr_event := "RuleMatched";
                 lr_details := rule_matched_details filepath line s rule |};
         ELog {| lr_level := "WARN"; lr_event := "ActionSkippedNoItemId";
                 lr_details := skipped_no_item_id_details filepath rule |}]
    | None => []
    end).

(** Every [ActionCalled] record of [d] names a pair whose entry in [m] is
    [now]. *)
Definition fired_marked (filepath : string) (now : Q) (d : list effect)
    (m : gmap (string * string) Q) : Prop :=
  forall (rule : CompiledRule) (c : string) (nm : option string) (status : Z),
    ELog {| lr_level := "INFO"; lr_event := "ActionCalled";
            lr_details := action_called_details filepath rule c nm status |} ∈ d ->
    m !! (c, name rule) = Some now.

Definition keeps_now (now : Q) (m m' : gmap (string * string) Q) : Prop :=
  forall k, m !! k = Some now -> m' !! k = Some now.

(** The world after passes that all find no line before the deadline: the
    two sweeps and a sleep of a quarter of a second, pass after pass. *)
Fixpoint idle_passes (rules : list CompiledRule) (ticks : list tick)
    (w : world) : world :=
  match ticks with
  | [] => w
  | tk :: ticks' =>
      idle_passes rules ticks' (emit (ESleep 0.25) (housekeeping rules tk w))
  end.

(** The compiled form of an entry, when building it raises nothing. *)
Definition compiled_of (r : Rule) : option CompiledRule :=
  match compile_rule r with
  | inr c => Some c
  | inl _ => None
  end.

(** The [RuleCompileError] record of an entry that fails. *)
Definition compile_error_record (r : Rule) : list effect :=
  match compile_rule r with
  | inr _ => []
  | inl e =>
      [ELog {| lr_level := "ERROR"; lr_event := "RuleCompileError";
               lr_details := [("rule", DRule r); ("error", DExn e)] |}]
  end.

(** An entry whose pattern is present and compiles, whatever its other
    keys. *)
Definition pattern_compiles (r : Rule) : bool :=
  match r_pattern r with
  | Some p => bool_decide (is_Some (re_compile p))
  | None => false
  end.

(** ** Properties of the rate limiter *)

Lemma elapsed_iff (now ts : Q) (ttl : Z) :
  elapsed now ts ttl = true <-> (inject_Z ttl <= now - ts)%Q.
Proof. unfold elapsed. apply Qle_bool_iff. Qed.

Lemma elapsed_false_iff (now ts : Q) (ttl : Z) :
  elapsed now ts ttl = false <-> (now - ts < inject_Z ttl)%Q.
Proof.
  rewrite <- not_true_iff_false, elapsed_iff. split.
  - apply Qnot_le_lt.
  - apply Qlt_not_le.
Qed.

Lemma pop_all_lookup (keys : list (string * string))
    (m : gmap (string * string) Q) (k : string * string) :
  pop_all keys m !! k = if decide (k ∈ keys) then None else m !! k.
Proof.
  unfold pop_all. revert m. induction keys as [|k0 keys IH]; intros m.
  - cbn [foldl].
    destruct (decide (k ∈ [])) as [Hin|Hin]; [by apply elem_of_nil in Hin|done].
  - cbn [foldl]. rewrite IH. destruct (decide (k = k0)) as [->|Hne].
    + rewrite lookup_delete_eq.
      destruct (decide (k0 ∈ keys)) as [Hi|Hi],
        (decide (k0 ∈ k0 :: keys)) as [Hj|Hj];
        try done; exfalso; apply Hj; by left.
    + rewrite lookup_delete_ne by done.
      destruct (decide (k ∈ keys)) as [Hi|Hi],
        (decide (k ∈ k0 :: keys)) as [Hj|Hj]; try done; exfalso.
      * apply Hj. by right.
      * apply elem_of_cons in Hj as [Hj|Hj]; done.
Qed.

Lemma elem_of_expired_keys (now : Q) (rules : list CompiledRule)
    (m : gmap (string * string) Q) (k : string * string) :
  k ∈ expired_keys now rules m <->
  exists ts, m !! k = Some ts /\ elapsed now ts (ttl_of rules k.2) = true.
Proof.
  unfold expired_keys. rewrite list_elem_of_bind. split.
  - intros [[k' ts] [Hk Hin]]. simpl in Hk.
    apply elem_of_map_to_list in Hin.
    destruct (elapsed now ts (ttl_of rules k'.2)) eqn:He.
    + apply list_elem_of_singleton in Hk. subst k'. eauto.
    + by apply elem_of_nil in Hk.
  - intros [ts [Hm He]]. exists (k, ts). simpl. rewrite He. split.
    + by apply list_elem_of_singleton.
    + by apply elem_of_map_to_list.
Qed.

Lemma cleanup_cache_lookup (now : Q) (rules : list CompiledRule) (w : world)
    (k : string * string) :
  recent_refresh (cleanup_cache now rules w) !! k =
  match recent_refresh w !! k with
  | Some ts => if elapsed now ts (ttl_of rules k.2) then None else Some ts
  | None => None
  end.
Proof.
  unfold cleanup_cache; simpl. rewrite pop_all_lookup.
  case_decide as Hin.
  - apply elem_of_expired_keys in Hin as [ts [Hm He]]. by rewrite Hm, He.
  - destruct (recent_refresh w !! k) as [ts|] eqn:Hm; [|done].
    destruct (elapsed now ts (ttl_of rules k.2)) eqn:He; [|done].
    exfalso. apply Hin. apply elem_of_expired_keys. eauto.
Qed.

Lemma ttl_of_first (rules : list CompiledRule) (rule_name : string) :
  ttl_of rules rule_name =
  match list_find (λ r, name r = rule_name) rules with
  | Some (_, r) => rate_limit_seconds r
  | None => 300
  end.
Proof.
  induction rules as [|r rules IH]; simpl; [done|].
  destruct (String.eqb_spec (name r) rule_name) as [Heq|Hne].
  - by rewrite decide_True.
  - rewrite decide_False by done. rewrite IH.
    by destruct (list_find _ rules) as [[i r']|].
Qed.

(** C3. [cleanup_cache] removes an entry exactly when the time elapsed
    since its timestamp has reached the window of the first active rule
    with the entry's rule name (300 seconds when no active rule has that
    name); every other entry is kept with its timestamp, no entry is added,
    and nothing but the cache changes. *)
Theorem cleanup_cache_removes_exactly_elapsed (now : Q)
    (rules : list CompiledRule) (w : world) :
  let w' := cleanup_cache now rules w in
  let window := λ rule_name : string,
    match list_find (λ r, name r = rule_name) rules with
    | Some (_, r) => rate_limit_seconds r
    | None => 300
    end in
  trace w' = trace w /\
  (forall k, recent_refresh w !! k = None -> recent_refresh w' !! k = None) /\
  (forall k ts, recent_refresh w !! k = Some ts ->
     (recent_refresh w' !! k = None <->
        (inject_Z (window k.2) <= now - ts)%Q) /\
     (recent_refresh w' !! k = Some ts <->
        (now - ts < inject_Z (window k.2))%Q)).
Proof.
  intros w' window. split; [done|]. split.
  - intros k Hk. unfold w'. by rewrite cleanup_cache_lookup, Hk.
  - intros k ts Hk. unfold w', window.
    rewrite cleanup_cache_lookup, Hk, <- ttl_of_first.
    rewrite <- elapsed_iff, <- elapsed_false_iff.
    destruct (elapsed now ts (ttl_of rules k.2)); split; split; congruence.
Qed.

(** C2, as the code has it. After [mark_fired c r t], whatever the rule,
    [can_fire c r t'] is true exactly from [t' = t + rate_limit_seconds] on.
    Hence, at [t] itself, it is false for a rule whose window is positive
    and true for a rule whose window is zero (or less). And [can_fire] is
    true whenever no firing is recorded for the key. *)
Theorem can_fire_after_mark_fired (r : CompiledRule) (c : string)
    (t t' : Q) (w : world) :
  (can_fire c r t' (mark_fired c r t w) = true <->
     (t + inject_Z (rate_limit_seconds r) <= t')%Q) /\
  (0 < rate_limit_seconds r -> can_fire c r t (mark_fired c r t w) = false) /\
  (rate_limit_seconds r <= 0 -> can_fire c r t (mark_fired c r t w) = true) /\
  (recent_refresh w !! (c, name r) = None -> can_fire c r t' w = true).
Proof.
  unfold can_fire, mark_fired; simpl. rewrite lookup_insert_eq.
  split; [|split; [|split]].
  - rewrite elapsed_iff. split; intros; lra.
  - intros Hpos. apply elapsed_false_iff.
    assert (inject_Z 0 < inject_Z (rate_limit_seconds r))%Q as Hq
      by (by rewrite <- Zlt_Qlt).
    change (inject_Z 0) with 0%Q in Hq. lra.
  - intros Hle. apply elapsed_iff.
    assert (inject_Z (rate_limit_seconds r) <= inject_Z 0)%Q as Hq
      by (by rewrite <- Zle_Qle).
    change (inject_Z 0) with 0%Q in Hq. lra.
  - by intros ->.
Qed.

(** ** Properties of the action dispatcher *)

Lemma actions_called_app (tr1 tr2 : list effect) :
  actions_called (tr1 ++ tr2) = actions_called tr1 ++ actions_called tr2.
Proof. apply List.filter_app. Qed.

Lemma posts_app (tr1 tr2 : list effect) :
  posts (tr1 ++ tr2) = posts tr1 ++ posts tr2.
Proof. apply List.filter_app. Qed.

(** A trace without [ActionCalled] records holds none. *)
Lemma not_action_called (d : list effect) (r : log_record) :
  actions_called d = [] -> ELog r ∈ d -> lr_event r <> "ActionCalled".
Proof.
  intros Hd Hin Hev. apply list_elem_of_In in Hin.
  assert (In (ELog r) (actions_called d)) as Hf.
  { apply List.filter_In. split; [done|]. simpl. by rewrite Hev. }
  rewrite Hd in Hf. destruct Hf.
Qed.

Lemma perform_action_world (act c : string) (nm : option string) (w : world) :
  recent_refresh (perform_action act c nm w).2 = recent_refresh w /\
  exists d, trace (perform_action act c nm w).2 = trace w ++ d /\
            actions_called d = [] /\ (length (posts d) <= 1)%nat.
Proof.
  unfold perform_action, call_emby_refresh.
  destruct (String.eqb act "refresh_metadata").
  - destruct (net (trace w) (refresh_url c)); simpl; (split; [done|]).
    + exists [EPost (refresh_url c)]. by repeat split.
    + exists [EPost (refresh_url c)]. by repeat split.
    + eexists [EPost (refresh_url c); ELog _].
      rewrite <- app_assoc. simpl. by repeat split.
  - simpl. split; [done|]. eexists [ELog _]. simpl. repeat split. lia.
Qed.

(** C7. [perform_action] is total: whatever the action, the item and the
    answer of the network, it returns a status. With the known action the
    status is the code of the response or of the HTTP error, and [0] with
    an [ApiTransportError] record when the call fails otherwise; an unknown
    action sends no request, is reported as [UnknownAction] at level ERROR
    and yields [0]. The cache is never touched. *)
Theorem perform_action_outcome (act c : string) (nm : option string)
    (w : world) :
  let url := refresh_url c in
  let logged := λ event details,
    ELog {| lr_level := "ERROR"; lr_event := event; lr_details := details |} in
  exists (status : Z) (w' : world),
    perform_action act c nm w = (status, w') /\
    recent_refresh w' = recent_refresh w /\
    (if String.eqb act "refresh_metadata" then
       match net (trace w) url with
       | HttpResponse code => status = code /\ trace w' = trace w ++ [EPost url]
       | HttpError code => status = code /\ trace w' = trace w ++ [EPost url]
       | HttpTransport e =>
           status = 0 /\
           trace w' = trace w ++
             [EPost url;
              logged "ApiTransportError" [("item_id", DStr c); ("error", DExn e)]]
       end
     else
       status = 0 /\
       trace w' = trace w ++ [logged "UnknownAction" [("action", DStr act)]]).
Proof.
  intros url logged. unfold perform_action, call_emby_refresh. fold url.
  destruct (String.eqb act "refresh_metadata").
  - destruct (net (trace w) url); eexists; eexists;
      (split; [reflexivity|]); simpl; repeat split.
    by rewrite <- app_assoc.
  - eexists; eexists; split; [reflexivity|]. by repeat split.
Qed.

(** ** Properties of one matched rule *)

Lemma fire_or_skip_permitted (filepath : string) (now : Q) (c : string)
    (nm : option string) (r : CompiledRule) (w : world) :
  can_fire c r now w = true ->
  fire_or_skip filepath now c nm r w =
  (Continue,
   write_log "ActionCalled" "INFO"
     (action_called_details filepath r c nm (perform_action (action r) c nm w).1)
     (mark_fired c r now (perform_action (action r) c nm w).2)).
Proof.
  intros Hcf. unfold fire_or_skip. rewrite Hcf.
  by destruct (perform_action (action r) c nm w).
Qed.

Lemma fire_or_skip_limited (filepath : string) (now : Q) (c : string)
    (nm : option string) (r : CompiledRule) (w : world) :
  can_fire c r now w = false ->
  exists last_ts,
    recent_refresh w !! (c, name r) = Some last_ts /\
    fire_or_skip filepath now c nm r w =
    if fits_float (rate_limit_seconds r) then
      (Continue,
       write_log "ActionSkippedTTL" "INFO"
         (skipped_ttl_details filepath r c nm
            (Qtrunc (inject_Z (rate_limit_seconds r) - (now - last_ts)))) w)
    else (Raise (OverflowError (rate_limit_seconds r)), w).
Proof.
  intros Hcf. unfold fire_or_skip. rewrite Hcf.
  unfold can_fire in Hcf.
  destruct (recent_refresh w !! (c, name r)) as [last_ts|]; [|done].
  by exists last_ts.
Qed.

(** The branch is left by falling through, or by the [OverflowError] of
    the conversion of a window that is out of the range of a float, in the
    rate-limited case only. It never raises [KeyError]. *)
Lemma fire_or_skip_control (filepath : string) (now : Q) (c : string)
    (nm : option string) (r : CompiledRule) (w : world) :
  (fire_or_skip filepath now c nm r w).1 =
  if can_fire c r now w || fits_float (rate_limit_seconds r) then Continue
  else Raise (OverflowError (rate_limit_seconds r)).
Proof.
  destruct (can_fire c r now w) eqn:Hcf.
  - by rewrite fire_or_skip_permitted.
  - destruct (fire_or_skip_limited filepath now c nm r w Hcf) as [ts [_ ->]].
    by destruct (fits_float (rate_limit_seconds r)).
Qed.

Lemma fire_or_skip_not_return (filepath : string) (now : Q) (c : string)
    (nm : option string) (r : CompiledRule) (w : world) :
  (fire_or_skip filepath now c nm r w).1 <> Return.
Proof.
  rewrite fire_or_skip_control.
  by destruct (can_fire c r now w || fits_float (rate_limit_seconds r)).
Qed.

Lemma fire_or_skip_cache (filepath : string) (now : Q) (c : string)
    (nm : option string) (r : CompiledRule) (w : world) :
  recent_refresh (fire_or_skip filepath now c nm r w).2 =
  if can_fire c r now w then <[(c, name r) := now]> (recent_refresh w)
  else recent_refresh w.
Proof.
  destruct (can_fire c r now w) eqn:Hcf.
  - rewrite fire_or_skip_permitted by done. simpl.
    by rewrite (proj1 (perform_action_world _ _ _ _)).
  - destruct (fire_or_skip_limited filepath now c nm r w Hcf) as [ts [_ ->]].
    by destruct (fits_float (rate_limit_seconds r)).
Qed.

(** What one matched rule adds to the trace: a single [ActionCalled] record
    after at most one request when it fires, no request and no such record
    when it is rate limited, whether it is skipped or raises. *)
Lemma fire_or_skip_trace (filepath : string) (now : Q) (c : string)
    (nm : option string) (r : CompiledRule) (w : world) :
  exists d,
    trace (fire_or_skip filepath now c nm r w).2 = trace w ++ d /\
    actions_called d =
      (if can_fire c r now w then
         [ELog {| lr_level := "INFO"; lr_event := "ActionCalled";
                  lr_details :=
                    action_called_details filepath r c nm
                      (perform_action (action r) c nm w).1 |}]
       else []) /\
    (length (posts d) <= (if can_fire c r now w then 1 else 0))%nat.
Proof.
  destruct (can_fire c r now w) eqn:Hcf.
  - rewrite fire_or_skip_permitted by done. simpl.
    destruct (perform_action_world (action r) c nm w) as [_ [d [-> [Ha Hp]]]].
    eexists (d ++ [ELog _]). rewrite <- app_assoc. split; [done|].
    rewrite actions_called_app, posts_app, Ha, length_app. simpl.
    split; [done|lia].
  - destruct (fire_or_skip_limited filepath now c nm r w Hcf) as [ts [_ ->]].
    destruct (fits_float (rate_limit_seconds r)); simpl.
    + eexists [ELog _]. by repeat split.
    + exists []. by rewrite app_nil_r.
Qed.

(** ** Properties of the loop over the rules *)

Lemma skip_records_quiet (filepath line : string) (s : session)
    (rules : list CompiledRule) :
  actions_called (skip_records filepath line s rules) = [] /\
  posts (skip_records filepath line s rules) = [].
Proof.
  unfold skip_records. induction rules as [|r rules [IHa IHp]]; [done|].
  cbn [mbind list_bind]. rewrite actions_called_app, posts_app, IHa, IHp.
  by destruct (re_search (pattern r) line).
Qed.

Lemma match_rules_no_item_id (filepath : string) (stop : bool) (now : Q)
    (line : string) (s : session) (rules : list CompiledRule) (w : world) :
  known_item_id s = None ->
  match_rules filepath stop now line s rules w =
  (Continue,
   {| recent_refresh := recent_refresh w;
      trace := trace w ++ skip_records filepath line s rules |}).
Proof.
  intros Hid. revert w. induction rules as [|r rules IH]; intros w.
  - simpl. rewrite app_nil_r. by destruct w.
  - cbn [match_rules]. unfold skip_records. cbn [mbind list_bind].
    fold (skip_records filepath line s rules).
    destruct (re_search (pattern r) line) as [m|].
    + rewrite Hid, IH. simpl. by rewrite <- !app_assoc.
    + by rewrite IH.
Qed.

(** With [stop_on_first_action] and a known item id, the loop ends at the
    first rule that matches the line, fired or not. *)
Lemma match_rules_first_match (filepath : string) (now : Q) (line : string)
    (s : session) (c : string) (pre post : list CompiledRule)
    (r : CompiledRule) (w : world) :
  known_item_id s = Some c ->
  Forall (λ r', re_search (pattern r') line = None) pre ->
  is_Some (re_search (pattern r) line) ->
  match_rules filepath true now line s (pre ++ r :: post) w =
  (stop_after
     (fire_or_skip filepath now c (sess_name s) r
        (write_log "RuleMatched" "INFO"
           (rule_matched_details filepath line s r) w)).1,
   (fire_or_skip filepath now c (sess_name s) r
      (write_log "RuleMatched" "INFO"
         (rule_matched_details filepath line s r) w)).2).
Proof.
  intros Hid Hpre [m Hm]. induction Hpre as [|r' pre Hr' _ IH].
  - cbn [app match_rules]. rewrite Hm, Hid.
    by destruct (fire_or_skip _ _ _ _ _ _) as [[| |e] w2].
  - cbn [app match_rules]. by rewrite Hr'.
Qed.

(** With [stop_on_first_action], a loop that runs to its end has fired
    nothing. *)
Lemma match_rules_stop_continue (filepath : string) (now : Q) (line : string)
    (s : session) (rules : list CompiledRule) (w w' : world) :
  match_rules filepath true now line s rules w = (Continue, w') ->
  actions_called (trace w') = actions_called (trace w) /\
  posts (trace w') = posts (trace w) /\
  recent_refresh w' = recent_refresh w.
Proof.
  revert w. induction rules as [|r rules IH]; intros w.
  - simpl. by intros [= ->].
  - cbn [match_rules]. destruct (re_search (pattern r) line) as [m|]; [|apply IH].
    destruct (known_item_id s) as [c|].
    + by destruct (fire_or_skip _ _ _ _ _ _) as [[| |e] w2].
    + intros H. apply IH in H as (Ha & Hp & Hc). simpl in *.
      rewrite Ha, Hp, Hc, !actions_called_app, !posts_app. simpl.
      by rewrite !app_nil_r.
Qed.

Lemma fired_marked_quiet (filepath : string) (now : Q) (d : list effect)
    (m : gmap (string * string) Q) :
  actions_called d = [] -> fired_marked filepath now d m.
Proof.
  intros Hd rule c nm status Hin.
  by apply (not_action_called _ _ Hd) in Hin.
Qed.

Lemma fired_marked_app (filepath : string) (now : Q) (d1 d2 : list effect)
    (m1 m2 : gmap (string * string) Q) :
  fired_marked filepath now d1 m1 -> keeps_now now m1 m2 ->
  fired_marked filepath now d2 m2 ->
  fired_marked filepath now (d1 ++ d2) m2.
Proof.
  intros H1 Hk H2 rule c nm status Hin.
  apply elem_of_app in Hin as [Hin|Hin]; eauto.
Qed.

Lemma fire_or_skip_marks (filepath : string) (now : Q) (c : string)
    (nm : option string) (r : CompiledRule) (w : world) :
  exists d,
    trace (fire_or_skip filepath now c nm r w).2 = trace w ++ d /\
    keeps_now now (recent_refresh w)
      (recent_refresh (fire_or_skip filepath now c nm r w).2) /\
    fired_marked filepath now d
      (recent_refresh (fire_or_skip filepath now c nm r w).2).
Proof.
  destruct (fire_or_skip_trace filepath now c nm r w) as [d [Ht [Ha _]]].
  exists d. split; [done|]. rewrite fire_or_skip_cache.
  destruct (can_fire c r now w) eqn:Hcf.
  - split.
    + intros k Hk. destruct (decide ((c, name r) = k)) as [<-|Hne].
      * by rewrite lookup_insert_eq.
      * by rewrite lookup_insert_ne.
    + intros rule c' nm' status Hin.
      apply list_elem_of_In in Hin.
      assert (In (ELog {| lr_level := "INFO"; lr_event := "ActionCalled";
                lr_details := action_called_details filepath rule c' nm' status |})
                (actions_called d)) as Hf
        by (apply List.filter_In; by split).
      rewrite Ha in Hf. destruct Hf as [Heq|[]].
      injection Heq as Hname _ Hc _ _. rewrite <- Hname, <- Hc.
      by rewrite lookup_insert_eq.
  - split; [by intros k Hk|]. by apply fired_marked_quiet.
Qed.

Lemma match_rules_marks (filepath : string) (stop : bool) (now : Q)
    (line : string) (s : session) (rules : list CompiledRule) (w : world) :
  exists d,
    trace (match_rules filepath stop now line s rules w).2 = trace w ++ d /\
    keeps_now now (recent_refresh w)
      (recent_refresh (match_rules filepath stop now line s rules w).2) /\
    fired_marked filepath now d
      (recent_refresh (match_rules filepath stop now line s rules w).2).
Proof.
  revert w. induction rules as [|r rules IH]; intros w.
  - exists []. simpl. rewrite app_nil_r. repeat split; [by intros k|].
    by apply fired_marked_quiet.
  - cbn [match_rules]. destruct (re_search (pattern r) line) as [m|]; [|apply IH].
    set (w1 := write_log "RuleMatched" "INFO"
                 (rule_matched_details filepath line s r) w).
    destruct (known_item_id s) as [c|].
    + destruct (fire_or_skip_marks filepath now c (sess_name s) r w1)
        as [d1 [Ht1 [Hk1 Hf1]]].
      destruct (fire_or_skip filepath now c (sess_name s) r w1) as [ctl w2].
      simpl in Ht1, Hk1, Hf1.
      assert (exists d,
                trace w2 = trace w ++ d /\
                keeps_now now (recent_refresh w) (recent_refresh w2) /\
                fired_marked filepath now d (recent_refresh w2)) as Hhere.
      { eexists (ELog _ :: d1). rewrite Ht1. unfold w1; simpl.
        rewrite <- app_assoc. split; [done|]. split; [done|].
        apply (fired_marked_app _ _ [_] d1 (recent_refresh w2));
          [by apply fired_marked_quiet|by intros k|done]. }
      destruct ctl as [| |e]; [|exact Hhere|exact Hhere].
      destruct stop; [exact Hhere|].
      * destruct (IH w2) as [d2 [Ht2 [Hk2 Hf2]]].
        eexists (ELog _ :: d1 ++ d2). rewrite Ht2, Ht1. unfold w1; simpl.
        rewrite <- !app_assoc. split; [done|]. split.
        { intros k Hk. by apply Hk2, Hk1. }
        apply (fired_marked_app _ _ [_] (d1 ++ d2)
                 (recent_refresh (match_rules filepath false now line s rules w2).2));
          [by apply fired_marked_quiet|by intros k|].
        by apply (fired_marked_app _ _ d1 d2 (recent_refresh w2)).
    + destruct (IH (write_log "ActionSkippedNoItemId" "WARN"
                      (skipped_no_item_id_details filepath r) w1))
        as [d2 [Ht2 [Hk2 Hf2]]].
      eexists (ELog _ :: ELog _ :: d2). rewrite Ht2. unfold w1; simpl.
      rewrite <- !app_assoc. split; [done|]. split; [done|].
      apply (fired_marked_app _ _ [_; _] d2
               (recent_refresh (match_rules filepath stop now line s rules
                  (write_log "ActionSkippedNoItemId" "WARN"
                     (skipped_no_item_id_details filepath r) w1)).2));
        [by apply fired_marked_quiet|by intros k|done].
Qed.

(** ** Properties of one pass of the loop *)

Lemma can_fire_cache (c : string) (r : CompiledRule) (now : Q) (w w' : world) :
  recent_refresh w = recent_refresh w' -> can_fire c r now w = can_fire c r now w'.
Proof. unfold can_fire. by intros ->. Qed.

Lemma cleanup_service_logs_quiet (swept : list (string * option pyexn))
    (w : world) :
  recent_refresh (cleanup_service_logs swept w) = recent_refresh w /\
  exists d, trace (cleanup_service_logs swept w) = trace w ++ d /\
            actions_called d = [] /\ posts d = [].
Proof.
  unfold cleanup_service_logs. revert w.
  induction swept as [|[path [e|]] swept IH]; intros w; cbn [foldl].
  - split; [done|]. exists []. by rewrite app_nil_r.
  - destruct (IH (write_log "LogRetentionError" "ERROR"
                    [("path", DStr path); ("error", DExn e)] w))
      as [Hc [d [Ht [Ha Hp]]]].
    simpl in *. rewrite Hc, Ht. split; [done|].
    eexists (ELog _ :: d). rewrite <- app_assoc. by repeat split.
  - destruct (IH (write_log "LogRetentionDelete" "INFO"
                    [("path", DStr path)] w))
      as [Hc [d [Ht [Ha Hp]]]].
    simpl in *. rewrite Hc, Ht. split; [done|].
    eexists (ELog _ :: d). rewrite <- app_assoc. by repeat split.
Qed.

Lemma housekeeping_quiet (rules : list CompiledRule) (tk : tick) (w : world) :
  recent_refresh (housekeeping rules tk w) =
    recent_refresh (cleanup_cache (tk_now tk) rules w) /\
  exists d, trace (housekeeping rules tk w) = trace w ++ d /\
            actions_called d = [] /\ posts d = [].
Proof.
  unfold housekeeping.
  destruct (cleanup_service_logs_quiet (tk_retention tk)
              (cleanup_cache (tk_now tk) rules w)) as [Hc [d Hd]].
  split; [done|]. by exists d.
Qed.

Lemma tail_step_deadline (filepath : string) (timeout : Z)
    (rules : list CompiledRule) (stop : bool) (start : Q) (tk : tick)
    (s : session) (w : world) :
  elapsed (tk_now tk) start timeout = true ->
  tail_step filepath timeout rules stop start tk s w =
  Exit ExitTimeout s
    (write_log "WatchTimeout" "INFO" [("file", DStr filepath)]
       (housekeeping rules tk w)).
Proof. intros He. unfold tail_step. by rewrite He. Qed.

Lemma tail_step_no_line (filepath : string) (timeout : Z)
    (rules : list CompiledRule) (stop : bool) (start : Q) (tk : tick)
    (s : session) (w : world) :
  elapsed (tk_now tk) start timeout = false ->
  tk_readline tk = inr "" ->
  tail_step filepath timeout rules stop start tk s w =
  Next s (emit (ESleep 0.25) (housekeeping rules tk w)).
Proof. intros He Hr. unfold tail_step. by rewrite He, Hr. Qed.

Lemma tail_step_first_match (filepath : string) (timeout : Z) (start : Q)
    (tk : tick) (s : session) (w : world) (line c : string)
    (pre post : list CompiledRule) (r : CompiledRule) :
  elapsed (tk_now tk) start timeout = false ->
  tk_readline tk = inr line ->
  line <> "" ->
  known_item_id (scan_line line s) = Some c ->
  Forall (λ r', re_search (pattern r') line = None) pre ->
  is_Some (re_search (pattern r) line) ->
  let wm :=
    write_log "RuleMatched" "INFO"
      (rule_matched_details filepath line (scan_line line s) r)
      (housekeeping (pre ++ r :: post) tk w) in
  tail_step filepath timeout (pre ++ r :: post) true start tk s w =
  if can_fire c r (tk_now tk) wm || fits_float (rate_limit_seconds r) then
    Exit ExitStop (scan_line line s)
      (fire_or_skip filepath (tk_now tk) c (sess_name (scan_line line s)) r
         wm).2
  else
    Exit ExitError (scan_line line s)
      (unhandled filepath (OverflowError (rate_limit_seconds r)) wm).
Proof.
  intros He Hr Hne Hid Hpre Hm wm. unfold tail_step. rewrite He, Hr.
  apply String.eqb_neq in Hne. rewrite Hne.
  rewrite (match_rules_first_match _ _ _ _ c) by done. fold wm.
  destruct (can_fire c r (tk_now tk) wm) eqn:Hcf.
  - rewrite fire_or_skip_permitted by done. done.
  - destruct (fire_or_skip_limited filepath (tk_now tk) c
                (sess_name (scan_line line s)) r wm Hcf) as [ts [_ Hfo]].
    rewrite Hfo. by destruct (fits_float (rate_limit_seconds r)).
Qed.

Lemma can_fire_after_housekeeping (filepath line : string) (s : session)
    (rules : list CompiledRule) (tk : tick) (w : world) (c : string)
    (r r0 : CompiledRule) (now : Q) :
  can_fire c r now
    (write_log "RuleMatched" "INFO" (rule_matched_details filepath line s r0)
       (housekeeping rules tk w)) =
  can_fire c r now (cleanup_cache (tk_now tk) rules w).
Proof.
  apply can_fire_cache. simpl.
  by destruct (housekeeping_quiet rules tk w) as [-> _].
Qed.

Lemma tail_step_first_match_stop (filepath : string) (timeout : Z)
    (start : Q) (tk : tick) (s : session) (w : world) (line c : string)
    (pre post : list CompiledRule) (r : CompiledRule) :
  elapsed (tk_now tk) start timeout = false ->
  tk_readline tk = inr line ->
  line <> "" ->
  known_item_id (scan_line line s) = Some c ->
  Forall (λ r', re_search (pattern r') line = None) pre ->
  is_Some (re_search (pattern r) line) ->
  can_fire c r (tk_now tk) (cleanup_cache (tk_now tk) (pre ++ r :: post) w)
    || fits_float (rate_limit_seconds r) = true ->
  tail_step filepath timeout (pre ++ r :: post) true start tk s w =
  Exit ExitStop (scan_line line s)
    (fire_or_skip filepath (tk_now tk) c (sess_name (scan_line line s)) r
       (write_log "RuleMatched" "INFO"
          (rule_matched_details filepath line (scan_line line s) r)
          (housekeeping (pre ++ r :: post) tk w))).2.
Proof.
  intros He Hr Hne Hid Hpre Hm Hok.
  rewrite (tail_step_first_match _ _ _ _ _ _ line c) by done.
  by rewrite can_fire_after_housekeeping, Hok.
Qed.

Lemma tail_step_first_match_overflow (filepath : string) (timeout : Z)
    (start : Q) (tk : tick) (s : session) (w : world) (line c : string)
    (pre post : list CompiledRule) (r : CompiledRule) :
  elapsed (tk_now tk) start timeout = false ->
  tk_readline tk = inr line ->
  line <> "" ->
  known_item_id (scan_line line s) = Some c ->
  Forall (λ r', re_search (pattern r') line = None) pre ->
  is_Some (re_search (pattern r) line) ->
  can_fire c r (tk_now tk) (cleanup_cache (tk_now tk) (pre ++ r :: post) w)
    = false ->
  fits_float (rate_limit_seconds r) = false ->
  tail_step filepath timeout (pre ++ r :: post) true start tk s w =
  Exit ExitError (scan_line line s)
    (unhandled filepath (OverflowError (rate_limit_seconds r))
       (write_log "RuleMatched" "INFO"
          (rule_matched_details filepath line (scan_line line s) r)
          (housekeeping (pre ++ r :: post) tk w))).
Proof.
  intros He Hr Hne Hid Hpre Hm Hcf Hfit.
  rewrite (tail_step_first_match _ _ _ _ _ _ line c) by done.
  by rewrite can_fire_after_housekeeping, Hcf, Hfit.
Qed.

(** With [stop_on_first_action], a pass that goes on to the next one has
    fired nothing. *)
Lemma tail_step_stop_next (filepath : string) (timeout : Z)
    (rules : list CompiledRule) (start : Q) (tk : tick) (s s' : session)
    (w w' : world) :
  tail_step filepath timeout rules true start tk s w = Next s' w' ->
  actions_called (trace w') = actions_called (trace w) /\
  posts (trace w') = posts (trace w).
Proof.
  unfold tail_step.
  destruct (housekeeping_quiet rules tk w) as [_ [d [Ht [Ha Hp]]]].
  destruct (elapsed (tk_now tk) start timeout); [done|].
  destruct (tk_readline tk) as [e|line]; [done|].
  destruct (String.eqb line "").
  - intros [= _ <-]. simpl. rewrite Ht.
    rewrite !actions_called_app, !posts_app, Ha, Hp. simpl.
    by rewrite !app_nil_r.
  - destruct (match_rules _ _ _ _ _ _ _) as [[| |e] w3] eqn:Hmr; try done.
    intros [= _ <-]. apply match_rules_stop_continue in Hmr as (-> & -> & _).
    rewrite Ht, actions_called_app, posts_app, Ha, Hp.
    by rewrite !app_nil_r.
Qed.

Lemma tail_loop_stop_running (filepath : string) (timeout : Z)
    (rules : list CompiledRule) (start : Q) (ticks : list tick)
    (s s' : session) (w w' : world) :
  tail_loop filepath timeout rules true start ticks s w = (Running, s', w') ->
  actions_called (trace w') = actions_called (trace w) /\
  posts (trace w') = posts (trace w).
Proof.
  revert s w. induction ticks as [|tk ticks IH]; intros s w; cbn [tail_loop].
  - by intros [= _ <-].
  - destruct (tail_step _ _ _ _ _ _ _ _) as [s1 w1|e s1 w1] eqn:Hst.
    + intros H. apply IH in H as [-> ->].
      by apply tail_step_stop_next in Hst.
    + intros [= -> _ _].
      unfold tail_step in Hst.
      destruct (elapsed (tk_now tk) start timeout); [done|].
      destruct (tk_readline tk) as [e|line]; [done|].
      destruct (String.eqb line ""); [done|].
      by destruct (match_rules _ _ _ _ _ _ _) as [[| |e] w3].
Qed.

Lemma tail_loop_app (filepath : string) (timeout : Z)
    (rules : list CompiledRule) (stop : bool) (start : Q)
    (before after : list tick) (s : session) (w : world) :
  tail_loop filepath timeout rules stop start (before ++ after) s w =
  match tail_loop filepath timeout rules stop start before s w with
  | (Running, s', w') =>
      tail_loop filepath timeout rules stop start after s' w'
  | run => run
  end.
Proof.
  revert s w. induction before as [|tk before IH]; intros s w; [done|].
  cbn [app tail_loop].
  destruct (tail_step _ _ _ _ _ _ _ _) as [s1 w1|e s1 w1] eqn:Hst.
  - apply IH.
  - destruct e; try done.
    unfold tail_step in Hst.
    destruct (elapsed (tk_now tk) start timeout); [done|].
    destruct (tk_readline tk) as [e|line]; [done|].
    destruct (String.eqb line ""); [done|].
    by destruct (match_rules _ _ _ _ _ _ _) as [[| |e] w3].
Qed.

Lemma tail_loop_deadline (filepath : string) (timeout : Z)
    (rules : list CompiledRule) (stop : bool) (start : Q)
    (before after : list tick) (tk : tick) (s : session) (w : world) :
  elapsed (tk_now tk) start timeout = true ->
  (tail_loop filepath timeout rules stop start (before ++ tk :: after) s w).1.1
    <> Running /\
  tail_loop filepath timeout rules stop start (before ++ tk :: after) s w =
  tail_loop filepath timeout rules stop start (before ++ [tk]) s w.
Proof.
  intros He. rewrite !tail_loop_app.
  destruct (tail_loop filepath timeout rules stop start before s w)
    as [[e s1] w1].
  destruct e; try done.
  cbn [tail_loop]. by rewrite tail_step_deadline.
Qed.

(** ** The tailing session *)

(** C1, as the code has it. In a pass with [stop_on_first_action] that
    reads a line while an item id is known, only the first rule, in
    declaration order, that matches the line is considered: the session
    stops right after it, with exactly one action dispatched (that rule's)
    when the rate limiter permits it and none when it does not; rules
    further down the list are never tried, even if they match. For a rule
    that is rate limited this is stated for a window within the range of a
    float, the one for which line 206 can compute the time left. *)
Theorem stop_on_first_action_first_match_only (filepath : string)
    (timeout : Z) (start : Q) (tk : tick) (s : session) (w : world)
    (line c : string) (pre post : list CompiledRule) (r : CompiledRule) :
  elapsed (tk_now tk) start timeout = false ->
  tk_readline tk = inr line ->
  line <> "" ->
  known_item_id (scan_line line s) = Some c ->
  Forall (λ r', re_search (pattern r') line = None) pre ->
  is_Some (re_search (pattern r) line) ->
  let rules := pre ++ r :: post in
  let now := tk_now tk in
  let permitted := can_fire c r now (cleanup_cache now rules w) in
  permitted = true \/ fits_float (rate_limit_seconds r) = true ->
  exists (w' : world) (status : Z),
    tail_step filepath timeout rules true start tk s w =
      Exit ExitStop (scan_line line s) w' /\
    actions_called (trace w') =
      actions_called (trace w) ++
      (if permitted then
         [ELog {| lr_level := "INFO"; lr_event := "ActionCalled";
                  lr_details :=
                    action_called_details filepath r c
                      (sess_name (scan_line line s)) status |}]
       else []) /\
    (length (posts (trace w')) <=
       length (posts (trace w)) + (if permitted then 1 else 0))%nat.
Proof.
  intros He Hr Hne Hid Hpre Hm rules now permitted Hok. unfold rules at 1.
  rewrite (tail_step_first_match_stop _ _ _ _ _ _ line c)
    by (try done; apply orb_true_iff; exact Hok).
  fold rules now.
  destruct (housekeeping_quiet rules tk w) as [Hc [d [Ht [Ha Hp]]]].
  set (w1 := write_log "RuleMatched" "INFO" _ _).
  destruct (fire_or_skip_trace filepath now c
              (sess_name (scan_line line s)) r w1) as [d1 [Ht1 [Ha1 Hp1]]].
  assert (can_fire c r now w1 = permitted) as Hperm
    by (apply can_fire_cache; unfold w1; simpl; by rewrite Hc).
  rewrite Hperm in Ha1, Hp1.
  eexists; eexists; split; [reflexivity|].
  rewrite Ht1. unfold w1; simpl. rewrite Ht.
  rewrite !actions_called_app, !posts_app, Ha, Hp, Ha1, !length_app.
  simpl. rewrite !app_nil_r. split; [done|]. simpl. lia.
Qed.

(** C4. A pass that reads a line while no item id has been extracted,
    neither before nor from that line, dispatches nothing and leaves the
    rate-limit cache as the sweep at the head of the pass left it; every
    rule that matches the line is logged as matched and then as skipped
    for want of an item id, in declaration order; and the session goes on to
    the next pass, whatever [stop_on_first_action] says. *)
Theorem no_item_id_no_action (filepath : string) (timeout : Z)
    (rules : list CompiledRule) (stop : bool) (start : Q) (tk : tick)
    (s : session) (w : world) (line : string) :
  elapsed (tk_now tk) start timeout = false ->
  tk_readline tk = inr line ->
  line <> "" ->
  sess_item_id s = None ->
  re_search ITEMID_RE line = None ->
  let w2 := housekeeping rules tk w in
  let s' := scan_line line s in
  let w' := {| recent_refresh := recent_refresh w2;
               trace := trace w2 ++ skip_records filepath line s' rules |} in
  tail_step filepath timeout rules stop start tk s w = Next s' w' /\
  sess_item_id s' = None /\
  recent_refresh w' = recent_refresh (cleanup_cache (tk_now tk) rules w) /\
  actions_called (trace w') = actions_called (trace w) /\
  posts (trace w') = posts (trace w) /\
  (forall r, r ∈ rules -> is_Some (re_search (pattern r) line) ->
     ELog {| lr_level := "WARN"; lr_event := "ActionSkippedNoItemId";
             lr_details := skipped_no_item_id_details filepath r |}
       ∈ skip_records filepath line s' rules).
Proof.
  intros He Hr Hne Hnone Hscan w2 s' w'.
  assert (sess_item_id s' = None) as Hs'
    by (unfold s', scan_line; simpl; by rewrite Hscan).
  assert (known_item_id s' = None) as Hk
    by (unfold known_item_id; by rewrite Hs').
  destruct (housekeeping_quiet rules tk w) as [Hc [d [Ht [Ha Hp]]]].
  destruct (skip_records_quiet filepath line s' rules) as [Hsa Hsp].
  split; [|split; [done|split; [done|split; [|split]]]].
  - unfold tail_step. rewrite He, Hr.
    apply String.eqb_neq in Hne. rewrite Hne.
    fold s' w2. by rewrite match_rules_no_item_id.
  - unfold w'; simpl. fold w2 in Ht. rewrite Ht.
    rewrite !actions_called_app, Ha, Hsa. by rewrite !app_nil_r.
  - unfold w'; simpl. fold w2 in Ht. rewrite Ht.
    rewrite !posts_app, Hp, Hsp. by rewrite !app_nil_r.
  - intros r Hin [m Hm]. unfold skip_records. apply list_elem_of_bind.
    exists r. split; [|done]. rewrite Hm. set_solver.
Qed.

Lemma tail_loop_idle (filepath : string) (timeout : Z)
    (rules : list CompiledRule) (stop : bool) (start : Q)
    (ticks : list tick) (s : session) (w : world) :
  Forall (λ tk, elapsed (tk_now tk) start timeout = false /\
                tk_readline tk = inr "") ticks ->
  tail_loop filepath timeout rules stop start ticks s w =
  (Running, s, idle_passes rules ticks w).
Proof.
  intros Hidle. revert w.
  induction Hidle as [|tk ticks [He Hr] _ IH]; intros w; [done|].
  cbn [tail_loop idle_passes]. by rewrite tail_step_no_line.
Qed.

Lemma tail_loop_no_early_timeout (filepath : string) (timeout : Z)
    (rules : list CompiledRule) (stop : bool) (start : Q)
    (ticks : list tick) (s : session) (w : world) :
  Forall (λ tk, elapsed (tk_now tk) start timeout = false) ticks ->
  (tail_loop filepath timeout rules stop start ticks s w).1.1 <> ExitTimeout.
Proof.
  intros Hearly. revert s w.
  induction Hearly as [|tk ticks He _ IH]; intros s w; [done|].
  cbn [tail_loop].
  destruct (tail_step _ _ _ _ _ _ _ _) as [s1 w1|e s1 w1] eqn:Hst;
    [apply IH|].
  simpl. intros ->. unfold tail_step in Hst. rewrite He in Hst.
  destruct (tk_readline tk) as [e|line]; [done|].
  destruct (String.eqb line ""); [done|].
  by destruct (match_rules _ _ _ _ _ _ _) as [[| |e] w3].
Qed.

(** C8. The deadline is checked at the head of every pass, before a line
    is looked for. A session whose clock reaches [start + timeout] at some
    pass therefore returns at that pass at the latest: if it is still alive
    there, it leaves through the timeout exit, whatever [readline] would
    have given, and the last record of the log is [WatchTimeout] at level
    INFO. So a session that never finds a line sleeps a quarter of a second
    in every pass before the deadline and times out at the first pass that
    reaches it. The timeout exit is taken at the deadline only: as long as
    the clock has not reached it, no session times out. *)
Theorem tail_file_stops_at_deadline (filepath : string) (timeout : Z)
    (rules : list CompiledRule) (global_cfg : GlobalCfg) (start : Q)
    (opened : open_result unit) (before after : list tick) (tk : tick)
    (w : world) :
  (inject_Z timeout <= tk_now tk - start)%Q ->
  let run := tail_file filepath timeout rules global_cfg start opened in
  let timed_out := λ w1,
    write_log "WatchTimeout" "INFO" [("file", DStr filepath)]
      (housekeeping rules tk w1) in
  (run (before ++ tk :: after) w).1.1 <> Running /\
  run (before ++ tk :: after) w = run (before ++ [tk]) w /\
  (forall s1 w1, run before w = (Running, s1, w1) ->
     run (before ++ tk :: after) w = (ExitTimeout, s1, timed_out w1)) /\
  (Forall (λ tk', elapsed (tk_now tk') start timeout = false /\
                  tk_readline tk' = inr "") before ->
   tail_file filepath timeout rules global_cfg start (Opened tt)
     (before ++ tk :: after) w =
   (ExitTimeout, {| sess_item_id := None; sess_name := None |},
    timed_out
      (idle_passes rules before
         (write_log "WatchStart" "INFO"
            [("file", DStr (base filepath)); ("timeout_s", DInt timeout)]
            w)))) /\
  (forall ticks,
     Forall (λ tk', elapsed (tk_now tk') start timeout = false) ticks ->
     (run ticks w).1.1 <> ExitTimeout) /\
  (forall stop tk' s' w',
     elapsed (tk_now tk') start timeout = false ->
     tk_readline tk' = inr "" ->
     tail_step filepath timeout rules stop start tk' s' w' =
     Next s' (emit (ESleep 0.25) (housekeeping rules tk' w'))).
Proof.
  intros Hreach run timed_out. apply elapsed_iff in Hreach.
  split; [|split; [|split; [|split; [|split]]]].
  - unfold run, tail_file. destruct opened; try done.
    by apply tail_loop_deadline.
  - unfold run, tail_file. destruct opened; try done.
    by apply tail_loop_deadline.
  - intros s1 w1. unfold run, tail_file. destruct opened; try done.
    intros Hb. rewrite tail_loop_app, Hb. cbn [tail_loop].
    by rewrite tail_step_deadline.
  - intros Hidle. unfold tail_file.
    rewrite tail_loop_app, (tail_loop_idle _ _ _ _ _ before) by done.
    cbn [tail_loop]. by rewrite tail_step_deadline.
  - intros ticks Hearly. unfold run, tail_file. destruct opened; try done.
    by apply tail_loop_no_early_timeout.
  - intros stop tk' s' w' He Hr. by apply tail_step_no_line.
Qed.

(** C9. With [stop_on_first_action], a session that reads, while an item id
    is known, a line matched by some rule ends at that line whether or not
    the rate limiter allowed the first matching rule to fire: later passes
    are not run. It returns through the stop exit; only when the rule is
    rate limited with a window out of the range of a float does it return
    through the handler of line 216 instead, the time left of line 206
    being impossible to compute. When the rule was rate limited, either
    way, the whole session has dispatched no action and sent no request,
    and the cache is as the sweep at the head of that pass left it. *)
Theorem rate_limited_match_ends_session (filepath : string) (timeout : Z)
    (global_cfg : GlobalCfg) (start : Q) (before after : list tick)
    (tk : tick) (w : world) (s1 : session) (w1 : world) (line c : string)
    (pre post : list CompiledRule) (r : CompiledRule) :
  py_bool (default (PBool true) (stop_on_first_action global_cfg)) = true ->
  let rules := pre ++ r :: post in
  let run := tail_file filepath timeout rules global_cfg start (Opened tt) in
  run before w = (Running, s1, w1) ->
  elapsed (tk_now tk) start timeout = false ->
  tk_readline tk = inr line ->
  line <> "" ->
  known_item_id (scan_line line s1) = Some c ->
  Forall (λ r', re_search (pattern r') line = None) pre ->
  is_Some (re_search (pattern r) line) ->
  let permitted :=
    can_fire c r (tk_now tk) (cleanup_cache (tk_now tk) rules w1) in
  exists w',
    run (before ++ tk :: after) w =
      (if permitted || fits_float (rate_limit_seconds r) then ExitStop
       else ExitError,
       scan_line line s1, w') /\
    (permitted = false ->
       actions_called (trace w') = actions_called (trace w) /\
       posts (trace w') = posts (trace w) /\
       recent_refresh w' =
         recent_refresh (cleanup_cache (tk_now tk) rules w1)).
Proof.
  intros Hstop rules run Hb He Hr Hne Hid Hpre Hm permitted.
  unfold run, tail_file in *. rewrite Hstop in *.
  rewrite tail_loop_app, Hb. cbn [tail_loop].
  apply tail_loop_stop_running in Hb as [Hba Hbp]. simpl in Hba, Hbp.
  rewrite actions_called_app in Hba. rewrite posts_app in Hbp.
  simpl in Hba, Hbp. rewrite app_nil_r in Hba, Hbp.
  destruct (housekeeping_quiet rules tk w1) as [Hc [d [Ht [Ha Hp]]]].
  destruct (permitted || fits_float (rate_limit_seconds r)) eqn:Hok.
  - unfold rules at 1.
    rewrite (tail_step_first_match_stop _ _ _ _ _ _ line c) by done.
    fold rules. eexists. split; [reflexivity|]. intros Hcf.
    set (wm := write_log "RuleMatched" "INFO" _ _).
    assert (can_fire c r (tk_now tk) wm = false) as Hcf'
      by (unfold wm; by rewrite can_fire_after_housekeeping).
    rewrite Hcf in Hok. simpl in Hok.
    destruct (fire_or_skip_limited filepath (tk_now tk) c
                (sess_name (scan_line line s1)) r wm Hcf') as [ts [_ ->]].
    rewrite Hok. unfold wm; simpl. rewrite Ht.
    rewrite !actions_called_app, !posts_app, Ha, Hp. simpl.
    rewrite !app_nil_r. by rewrite Hba, Hbp.
  - apply orb_false_iff in Hok as [Hcf Hfit]. unfold rules at 1.
    rewrite (tail_step_first_match_overflow _ _ _ _ _ _ line c) by done.
    fold rules. eexists. split; [reflexivity|]. intros _. simpl. rewrite Ht.
    rewrite !actions_called_app, !posts_app, Ha, Hp. simpl.
    rewrite !app_nil_r. by rewrite Hba, Hbp.
Qed.

(** C10. In the permitted branch the cache entry of the pair is written
    after [perform_action] has returned, whatever status it returned, [0]
    included. Hence, for every pass of the loop, each [ActionCalled] record
    that the pass adds to the log, with any status code, names a rule and an
    item whose entry at the end of the pass is the [now] of the pass; and
    from such an entry the pair may fire again exactly when the rule's
    window has gone by. *)
Theorem firing_marks_whatever_the_outcome (filepath : string) (timeout : Z)
    (rules : list CompiledRule) (stop : bool) (start : Q) (tk : tick)
    (s : session) (w : world) :
  let now := tk_now tk in
  let w' := step_world (tail_step filepath timeout rules stop start tk s w) in
  (forall c nm r w0, can_fire c r now w0 = true ->
     exists status w1,
       perform_action (action r) c nm w0 = (status, w1) /\
       fire_or_skip filepath now c nm r w0 =
       (Continue,
        write_log "ActionCalled" "INFO"
          (action_called_details filepath r c nm status)
          (mark_fired c r now w1))) /\
  (exists d,
     trace w' = trace w ++ d /\
     forall (r : CompiledRule) c nm status,
       ELog {| lr_level := "INFO"; lr_event := "ActionCalled";
               lr_details := action_called_details filepath r c nm status |} ∈ d ->
       recent_refresh w' !! (c, name r) = Some now /\
       forall t', can_fire c r t' w' = true <->
                  (now + inject_Z (rate_limit_seconds r) <= t')%Q).
Proof.
  intros now w'. split.
  - intros c nm r w0 Hcf. rewrite fire_or_skip_permitted by done.
    destruct (perform_action (action r) c nm w0) as [status w1]. eauto.
  - assert (exists d, trace w' = trace w ++ d /\
              fired_marked filepath now d (recent_refresh w')) as [d [Ht Hf]].
    { unfold w', tail_step. fold now.
      destruct (housekeeping_quiet rules tk w) as [_ [d0 [Ht0 [Ha0 _]]]].
      destruct (elapsed now start timeout).
      { eexists (d0 ++ [ELog _]). simpl. rewrite Ht0, <- app_assoc.
        split; [done|]. apply fired_marked_quiet.
        by rewrite actions_called_app, Ha0. }
      destruct (tk_readline tk) as [e|line].
      { eexists (d0 ++ [ELog _]). simpl. rewrite Ht0, <- app_assoc.
        split; [done|]. apply fired_marked_quiet.
        by rewrite actions_called_app, Ha0. }
      destruct (String.eqb line "").
      { eexists (d0 ++ [_]). simpl. rewrite Ht0, <- app_assoc.
        split; [done|]. apply fired_marked_quiet.
        by rewrite actions_called_app, Ha0. }
      destruct (match_rules_marks filepath stop now line (scan_line line s)
                  rules (housekeeping rules tk w)) as [d1 [Ht1 [_ Hf1]]].
      destruct (match_rules _ _ _ _ _ _ _) as [[| |e] w3];
        simpl in Ht1, Hf1; simpl.
      - exists (d0 ++ d1). rewrite Ht1, Ht0, <- app_assoc. split; [done|].
        apply (fired_marked_app _ _ d0 d1 (recent_refresh w3));
          [by apply fired_marked_quiet|by intros k|done].
      - exists (d0 ++ d1). rewrite Ht1, Ht0, <- app_assoc. split; [done|].
        apply (fired_marked_app _ _ d0 d1 (recent_refresh w3));
          [by apply fired_marked_quiet|by intros k|done].
      - eexists (d0 ++ d1 ++ [ELog _]). rewrite Ht1, Ht0, <- !app_assoc.
        split; [done|].
        apply (fired_marked_app _ _ d0 (d1 ++ [_]) (recent_refresh w3));
          [by apply fired_marked_quiet|by intros k|].
        apply (fired_marked_app _ _ d1 [_] (recent_refresh w3));
          [done|by intros k|by apply fired_marked_quiet]. }
    exists d. split; [done|]. intros r c nm status Hin.
    pose proof (Hf r c nm status Hin) as Hentry. split; [done|].
    intros t'. unfold can_fire. rewrite Hentry, elapsed_iff.
    split; intros; lra.
Qed.

(** ** The rule compiler *)

Lemma compile_rules_spec (rules : list Rule) (acc : list CompiledRule)
    (w : world) :
  compile_rules rules acc w =
  (acc ++ omap compiled_of rules,
   {| recent_refresh := recent_refresh w;
      trace := trace w ++ (rules ≫= compile_error_record) |}).
Proof.
  revert acc w. induction rules as [|r rules IH]; intros acc w.
  - simpl. rewrite !app_nil_r. by destruct w.
  - cbn [compile_rules omap list_omap mbind list_bind].
    unfold compiled_of at 1, compile_error_record at 1.
    destruct (compile_rule r) as [e|c]; rewrite IH; simpl.
    + by rewrite <- app_assoc.
    + by rewrite <- app_assoc.
Qed.

Lemma compiled_of_inv (r : Rule) (c : CompiledRule) :
  compiled_of r = Some c <->
  exists n p rx z,
    r_name r = Some n /\ r_pattern r = Some p /\ re_compile p = Some rx /\
    py_int (default (PInt 300) (r_rate_limit_seconds r)) = Some z /\
    c = {| name := n; pattern := rx;
           action := default "refresh_metadata" (r_action r);
           rate_limit_seconds := z;
           level := default "WARN" (r_level r) |}.
Proof.
  unfold compiled_of, compile_rule. split.
  - destruct (r_name r) as [n|]; [|done].
    destruct (r_pattern r) as [p|]; [|done].
    destruct (re_compile p) as [rx|] eqn:Hrx; [|done].
    destruct (py_int _) as [z|] eqn:Hz; [|done].
    intros [= <-]. exists n, p, rx, z. by repeat split.
  - intros (n & p & rx & z & -> & -> & Hrx & Hz & ->).
    by rewrite Hrx, Hz.
Qed.

(** C5, as the code has it. When rules.json parses, [load_rules] returns,
    in declaration order, the compiled form of exactly those entries whose
    whole compilation succeeds: name and pattern present, pattern accepted
    by [re.compile], and [rate_limit_seconds] (300 when absent) accepted by
    [int]. Every other entry is reported by one [RuleCompileError] record
    and skipped, the entries after it are still compiled, and the count of
    compiled rules is logged. A compiled rule has action
    ["refresh_metadata"], window 300 and level ["WARN"] where the entry
    gives none. *)
Theorem load_rules_keeps_compilable_in_order (text : string) (cfg : config)
    (w : world) :
  json_load text = inr cfg ->
  let rules := default [] (cfg_rules cfg) in
  let compiled := omap compiled_of rules in
  load_rules (Opened text) w =
    ((compiled, default default_global (cfg_global cfg)),
     {| recent_refresh := recent_refresh w;
        trace := trace w ++ (rules ≫= compile_error_record) ++
                 [ELog {| lr_level := "INFO"; lr_event := "RulesLoaded";
                          lr_details :=
                            [("count", DInt (Z.of_nat (length compiled)))] |}] |})
  /\
  (forall r, is_Some (compiled_of r) <->
     exists n p rx z,
       r_name r = Some n /\ r_pattern r = Some p /\ re_compile p = Some rx /\
       py_int (default (PInt 300) (r_rate_limit_seconds r)) = Some z) /\
  (forall r c, compiled_of r = Some c ->
     r_name r = Some (name c) /\
     (exists p, r_pattern r = Some p /\ re_compile p = Some (pattern c)) /\
     action c = default "refresh_metadata" (r_action r) /\
     level c = default "WARN" (r_level r) /\
     (r_rate_limit_seconds r = None -> rate_limit_seconds c = 300)).
Proof.
  intros Hload rules compiled. split; [|split].
  - unfold load_rules. rewrite Hload. fold rules.
    rewrite compile_rules_spec. simpl. fold compiled.
    unfold write_log; simpl. by rewrite <- app_assoc.
  - intros r. split.
    + intros [c Hc]. apply compiled_of_inv in Hc
        as (n & p & rx & z & ? & ? & ? & ? & _). by exists n, p, rx, z.
    + intros (n & p & rx & z & Hn & Hp & Hrx & Hz). eexists.
      apply compiled_of_inv. by exists n, p, rx, z.
  - intros r c Hc. apply compiled_of_inv in Hc
      as (n & p & rx & z & Hn & Hp & Hrx & Hz & ->). simpl.
    split; [done|]. split; [by exists p|]. split; [done|]. split; [done|].
    intros Hnone. rewrite Hnone in Hz. simpl in Hz. congruence.
Qed.

(** C6. When rules.json is missing, cannot be read or does not parse,
    [load_rules] returns: the rule list is empty, the global settings are
    [stop_on_first_action = True] and a reload interval of 60 seconds, and
    the only effect is one record at level ERROR, [RulesNotFound] for a
    missing file and [RulesLoadError] otherwise. *)
Theorem load_rules_defaults_when_unreadable (src : open_result string)
    (w : world) :
  src = NotFound \/ (exists e, src = OpenRaises e) \/
  (exists text e, src = Opened text /\ json_load text = inl e) ->
  exists rec,
    load_rules src w =
      (([], {| stop_on_first_action := Some (PBool true);
               rule_reload_seconds := Some (PInt 60) |}),
       {| recent_refresh := recent_refresh w;
          trace := trace w ++ [ELog rec] |}) /\
    lr_level rec = "ERROR" /\
    lr_event rec = match src with
                   | NotFound => "RulesNotFound"
                   | _ => "RulesLoadError"
                   end.
Proof.
  intros [->|[[e ->]|(text & e & -> & Hload)]].
  - eexists. by repeat split.
  - eexists. by repeat split.
  - unfold load_rules. rewrite Hload. eexists. by repeat split.
Qed.

End Watchdog.

(** ** Concrete runs

    The program on the small runtime [Toy.runtime]: two rules on literal
    patterns, a network that answers 204, a log file of two lines. *)

Definition rule (n p : string) (window : Z) : @CompiledRule Toy.runtime :=
  @Build_CompiledRule Toy.runtime n (Toy.Literal p) "refresh_metadata"
    window "WARN".

Definition ruleA : @CompiledRule Toy.runtime := rule "A" "ERROR" 10.
Definition ruleB : @CompiledRule Toy.runtime := rule "B" "occurred" 10.
Definition ruleC : @CompiledRule Toy.runtime := rule "C" "fatal" 10.
Definition rule_no_window : @CompiledRule Toy.runtime := rule "A" "ERROR" 0.

Definition net_ok : list effect -> string -> http_outcome :=
  λ _ _, HttpResponse 204.

Definition logfile : string := "/logs/ffmpeg-transcode-1.txt".

(** The line [{"ItemId":"42"}]. *)
Definition line_id : string :=
  "{" +:+ Toy.dq +:+ "ItemId" +:+ Toy.dq +:+ ":"
  +:+ Toy.dq +:+ "42" +:+ Toy.dq +:+ "}".

Definition line_err : string := "ERROR occurred".

Definition fresh : world := {| recent_refresh := ∅; trace := [] |}.

(** A process in which rule A fired for item 42 at time [t]. *)
Definition fired_at (t : Q) : world :=
  {| recent_refresh := {[ ("42", "A") := t ]}; trace := [] |}.

Definition reads (now : Q) (line : string) : tick :=
  {| tk_now := now; tk_retention := []; tk_readline := inr line |}.

Definition knows_42 : session :=
  {| sess_item_id := Some "42"; sess_name := None |}.

Definition knows_nothing : session :=
  {| sess_item_id := None; sess_name := None |}.

Example line_id_extracts_42 :
  sess_item_id (scan_line (RT:=Toy.runtime) line_id knows_nothing) = Some "42".
Proof. reflexivity. Qed.

(** The scenario of the specification: rule A with a window of 10 seconds,
    the id line and then the error line; one firing for item 42, and the
    session ends. *)
Example scenario_one_firing :
  let run := tail_file (RT:=Toy.runtime) net_ok logfile 5 [ruleA]
               default_global 101 (Opened tt)
               [reads 102 line_id; reads 103 line_err] fresh in
  run.1.1 = ExitStop /\
  length (actions_called (trace run.2)) = 1%nat /\
  posts (trace run.2) = [EPost (refresh_url "42")] /\
  recent_refresh run.2 !! ("42", "A") = Some 103%Q.
Proof. vm_compute. by repeat split. Qed.

(** Counterexample to C1 as stated. Rule A fired for item 42 three seconds
    ago, rule B never did. The error line matches both rules and the item id
    is known; the rate limiter permits B. The session stops at A, which is
    rate limited, and dispatches nothing. *)
Lemma first_match_rate_limited_fires_nothing :
  let rules := [ruleA; ruleB] in
  let run := tail_file (RT:=Toy.runtime) net_ok logfile 5 rules
               default_global 101 (Opened tt)
               [reads 102 line_id; reads 103 line_err] (fired_at 100) in
  re_search (pattern ruleA) line_err <> None /\
  re_search (pattern ruleB) line_err <> None /\
  known_item_id run.1.2 = Some "42" /\
  can_fire "42" ruleA 103 (cleanup_cache 103 rules (fired_at 100)) = false /\
  can_fire "42" ruleB 103 (cleanup_cache 103 rules (fired_at 100)) = true /\
  run.1.1 = ExitStop /\
  actions_called (trace run.2) = [] /\
  posts (trace run.2) = [].
Proof. vm_compute. by repeat split. Qed.

(** Counterexample to C2 as stated: with a window of 0 seconds the pair may
    fire again at the very time it was marked. *)
Lemma zero_window_fires_again_at_once :
  rate_limit_seconds rule_no_window = 0 /\
  can_fire "42" rule_no_window 100
    (mark_fired "42" rule_no_window 100 fresh) = true.
Proof. vm_compute. by split. Qed.

(** Counterexample to C5 as stated: the entry B of [Toy.rules_text] has a
    pattern that compiles, and is left out because its
    [rate_limit_seconds] is [null]. *)
Lemma compilable_pattern_still_skipped :
  let entries := default [] (cfg_rules Toy.rules_doc) in
  json_load (PyRuntime := Toy.runtime) Toy.rules_text = inr Toy.rules_doc /\
  omap r_name (List.filter (pattern_compiles (RT:=Toy.runtime)) entries)
    = ["A"; "B"] /\
  name <$> (load_rules (RT:=Toy.runtime) (Opened Toy.rules_text) fresh).1.1
    = ["A"].
Proof. vm_compute. by repeat split. Qed.

(** ** The theorems at concrete inputs *)

(** Rules C, A, B in that order, item 42 known, nothing fired before: the
    error line stops the session at A with one action dispatched. *)
Lemma stop_on_first_action_first_match_only_witness :
  exists w',
    tail_step (RT:=Toy.runtime) net_ok logfile 5 ([ruleC] ++ ruleA :: [ruleB])
      true 101 (reads 103 line_err) knows_42 fresh
    = Exit ExitStop knows_42 w' /\
    length (actions_called (trace w')) = 1%nat.
Proof.
  destruct (@stop_on_first_action_first_match_only Toy.runtime net_ok
              logfile 5 101 (reads 103 line_err) knows_42 fresh
              line_err "42" [ruleC] [ruleB] ruleA)
    as (w' & status & Hstep & Hact & _).
  - reflexivity.
  - reflexivity.
  - discriminate.
  - reflexivity.
  - repeat constructor.
  - eexists. reflexivity.
  - right. vm_compute. reflexivity.
  - exists w'. split; [exact Hstep|]. rewrite Hact. reflexivity.
Defined.

(** The error line read before any item id is known: the session goes on,
    nothing is dispatched. *)
Lemma no_item_id_no_action_witness :
  exists w',
    tail_step (RT:=Toy.runtime) net_ok logfile 5 [ruleA; ruleB]
      true 101 (reads 102 line_err) knows_nothing fresh
    = Next knows_nothing w' /\
    actions_called (trace w') = [] /\
    recent_refresh w' = ∅.
Proof.
  destruct (@no_item_id_no_action Toy.runtime net_ok logfile 5
              [ruleA; ruleB] true 101 (reads 102 line_err) knows_nothing
              fresh line_err)
    as (Hstep & _ & Hcache & Hact & _).
  - reflexivity.
  - reflexivity.
  - discriminate.
  - reflexivity.
  - reflexivity.
  - eexists. split; [exact Hstep|]. split; [exact Hact|]. exact Hcache.
Defined.

(** A watch of 5 seconds started at 101 on a file that stays empty until a
    line arrives at 106: two idle passes, then the pass at 106 ends the
    session through the timeout exit, although a line is waiting. *)
Lemma tail_file_stops_at_deadline_witness :
  exists w',
    tail_file (RT:=Toy.runtime) net_ok logfile 5 [ruleA] default_global 101
      (Opened tt)
      ([reads 102 ""; reads 104 ""] ++ reads 106 line_err :: [reads 107 ""])
      fresh
    = (ExitTimeout, knows_nothing, w') /\
    last (trace w') =
      Some (ELog {| lr_level := "INFO"; lr_event := "WatchTimeout";
                    lr_details := [("file", DStr logfile)] |}) /\
    posts (trace w') = [].
Proof.
  assert (inject_Z 5 <= tk_now (reads 106 line_err) - 101)%Q as Hreach
    by (vm_compute; discriminate).
  destruct (@tail_file_stops_at_deadline Toy.runtime net_ok logfile 5
              [ruleA] default_global 101 (Opened tt)
              [reads 102 ""; reads 104 ""] [reads 107 ""]
              (reads 106 line_err) fresh Hreach)
    as (_ & _ & _ & Hidle & _).
  eexists. split; [apply Hidle|].
  - apply List.Forall_cons; [|apply List.Forall_cons; [|apply List.Forall_nil]];
      split; reflexivity.
  - split; reflexivity.
Defined.

(** Rule A fired for item 42 at 100; a session started at 101 reads the id
    line and then the error line at 103: it stops there and has dispatched
    nothing. *)
Lemma rate_limited_match_ends_session_witness :
  exists w',
    tail_file (RT:=Toy.runtime) net_ok logfile 5 ([] ++ ruleA :: [ruleB])
      default_global 101 (Opened tt)
      ([reads 102 line_id] ++ reads 103 line_err :: []) (fired_at 100)
    = (ExitStop, knows_42, w') /\
    actions_called (trace w') = [] /\ posts (trace w') = [].
Proof.
  pose (before := tail_file (RT:=Toy.runtime) net_ok logfile 5
          ([] ++ ruleA :: [ruleB]) default_global 101 (Opened tt)
          [reads 102 line_id] (fired_at 100)).
  destruct (@rate_limited_match_ends_session Toy.runtime net_ok logfile 5
              default_global 101 [reads 102 line_id] []
              (reads 103 line_err) (fired_at 100) before.1.2 before.2
              line_err "42" [] [ruleB] ruleA)
    as (w' & Hrun & Hquiet).
  - reflexivity.
  - reflexivity.
  - reflexivity.
  - reflexivity.
  - discriminate.
  - reflexivity.
  - constructor.
  - eexists. reflexivity.
  - exists w'. split; [exact Hrun|].
    destruct Hquiet as (Hact & Hposts & _); [reflexivity|].
    split; [exact Hact|exact Hposts].
Defined.

(** [Toy.rules_text] parses: of its three entries only A is compiled. *)
Lemma load_rules_keeps_compilable_in_order_witness :
  json_load (PyRuntime := Toy.runtime) Toy.rules_text = inr Toy.rules_doc /\
  name <$> (load_rules (RT:=Toy.runtime) (Opened Toy.rules_text) fresh).1.1
    = ["A"].
Proof.
  assert (json_load (PyRuntime := Toy.runtime) Toy.rules_text
          = inr Toy.rules_doc) as Hload by reflexivity.
  split; [exact Hload|].
  rewrite (proj1 (@load_rules_keeps_compilable_in_order Toy.runtime
                    Toy.rules_text Toy.rules_doc fresh Hload)).
  reflexivity.
Defined.

(** A file that is not JSON. *)
Lemma load_rules_defaults_when_unreadable_witness :
  exists rec,
    load_rules (RT:=Toy.runtime) (Opened "not json") fresh =
      (([], default_global),
       {| recent_refresh := ∅; trace := [ELog rec] |}) /\
    lr_level rec = "ERROR".
Proof.
  destruct (@load_rules_defaults_when_unreadable Toy.runtime
              (Opened "not json") fresh) as (rec & Hload & Hlevel & _).
  - right. right. exists "not json", (JSONDecodeError "not json").
    split; reflexivity.
  - exists rec. split; [exact Hload|exact Hlevel].
Defined.

(** * Further properties of the program *)

Section More.

Context `{RT : PyRuntime}.
Variable net : list effect -> string -> http_outcome.

(** ** More on the rate limiter *)

Lemma cleanup_cache_world (now : Q) (rules : list CompiledRule) (w w' : world) :
  trace w = trace w' ->
  (forall k, recent_refresh (cleanup_cache now rules w) !! k =
             recent_refresh w' !! k) ->
  cleanup_cache now rules w = w'.
Proof.
  intros Ht Hk. destruct w' as [m' tr']. unfold cleanup_cache, set_cache.
  simpl in *. f_equal; [|done]. apply map_eq. intros k. apply Hk.
Qed.

(** X1. Sweeping at an earlier time changes nothing to what a later sweep
    leaves: the cache after [cleanup_cache] at [now2] is the same whether or
    not it was swept at some [now1 <= now2] before, with the same rules. In
    particular a sweep repeated at the same time does nothing more. *)
Theorem cleanup_cache_later_sweep_absorbs (now1 now2 : Q)
    (rules : list CompiledRule) (w : world) :
  (now1 <= now2)%Q ->
  cleanup_cache now2 rules (cleanup_cache now1 rules w) =
  cleanup_cache now2 rules w.
Proof.
  intros Hle. apply cleanup_cache_world; [done|]. intros k.
  rewrite !cleanup_cache_lookup.
  destruct (recent_refresh w !! k) as [ts|]; [|done].
  destruct (elapsed now1 ts (ttl_of rules k.2)) eqn:He1; [|done].
  destruct (elapsed now2 ts (ttl_of rules k.2)) eqn:He2; [done|].
  apply elapsed_iff in He1. apply elapsed_false_iff in He2. lra.
Qed.

Lemma ttl_of_unique (rules : list CompiledRule) (r : CompiledRule) :
  NoDup (name <$> rules) -> r ∈ rules ->
  ttl_of rules (name r) = rate_limit_seconds r.
Proof.
  induction rules as [|r0 rules IH]; intros Hnd Hin.
  - by apply elem_of_nil in Hin.
  - rewrite fmap_cons in Hnd. apply NoDup_cons in Hnd as [Hfresh Hnd].
    cbn [ttl_of]. apply elem_of_cons in Hin as [->|Hin].
    + by rewrite String.eqb_refl.
    + destruct (String.eqb_spec (name r0) (name r)) as [Heq|Hne].
      * exfalso. apply Hfresh. rewrite Heq. by apply list_elem_of_fmap_2.
      * by apply IH.
Qed.

(** X2. When rule names are distinct, the sweep never changes what
    [can_fire] answers at the time of the sweep for an active rule: an entry
    it removes is one whose window has gone by, for which [can_fire] was
    already true. *)
Theorem cleanup_cache_keeps_can_fire (now : Q) (rules : list CompiledRule)
    (r : CompiledRule) (c : string) (w : world) :
  NoDup (name <$> rules) -> r ∈ rules ->
  can_fire c r now (cleanup_cache now rules w) = can_fire c r now w.
Proof.
  intros Hnd Hin. unfold can_fire. rewrite cleanup_cache_lookup. simpl.
  rewrite (ttl_of_unique rules r Hnd Hin).
  destruct (recent_refresh w !! (c, name r)) as [ts|]; [|done].
  by destruct (elapsed now ts (rate_limit_seconds r)) eqn:He; rewrite ?He.
Qed.

(** X3. [mark_fired] writes one key and nothing else: the answer of
    [can_fire] for any other (item, rule name) pair is unchanged, and the
    trace is untouched. The key holds the rule's name, not the rule: a rule
    of the same name is held back by the mark as well, for its own window. *)
Theorem mark_fired_touches_one_key (c c' : string) (r r' : CompiledRule)
    (t t' : Q) (w : world) :
  trace (mark_fired c r t w) = trace w /\
  ((c', name r') <> (c, name r) ->
     can_fire c' r' t' (mark_fired c r t w) = can_fire c' r' t' w) /\
  (name r' = name r ->
     (can_fire c r' t' (mark_fired c r t w) = true <->
        (t + inject_Z (rate_limit_seconds r') <= t')%Q)).
Proof.
  split; [done|]. unfold can_fire, mark_fired; simpl. split.
  - intros Hne. by rewrite lookup_insert_ne.
  - intros ->. rewrite lookup_insert_eq, elapsed_iff. split; intros; lra.
Qed.

(** ** More on the tailing session *)

(** What a run of the program adds to the trace when it only appends:
    every request goes with an [ActionCalled] record, and with
    [stop_on_first_action] there is at most one such record, none unless
    the run ends through the stop exit. *)
Definition accounted (stop stopped : bool) (d : list effect) : Prop :=
  (length (posts d) <= length (actions_called d))%nat /\
  (stop = true ->
     (length (actions_called d) <= 1)%nat /\
     (stopped = false -> actions_called d = [])).

Definition is_stop (e : exit) : bool :=
  match e with
  | ExitStop => true
  | _ => false
  end.

Definition step_stopped (st : step) : bool :=
  match st with
  | Exit e _ _ => is_stop e
  | Next _ _ => false
  end.

Lemma accounted_quiet (stop stopped : bool) (d : list effect) :
  actions_called d = [] -> posts d = [] -> accounted stop stopped d.
Proof. intros Ha Hp. unfold accounted. rewrite Ha, Hp. simpl. by auto. Qed.

Lemma accounted_quiet_app (stop stopped : bool) (d1 d2 : list effect) :
  actions_called d1 = [] -> posts d1 = [] ->
  accounted stop stopped d2 -> accounted stop stopped (d1 ++ d2).
Proof.
  intros Ha Hp H. unfold accounted in *.
  by rewrite actions_called_app, posts_app, Ha, Hp.
Qed.

Lemma accounted_app_quiet (stop stopped : bool) (d1 d2 : list effect) :
  actions_called d2 = [] -> posts d2 = [] ->
  accounted stop stopped d1 -> accounted stop stopped (d1 ++ d2).
Proof.
  intros Ha Hp H. unfold accounted in *.
  by rewrite actions_called_app, posts_app, Ha, Hp, !app_nil_r.
Qed.


Definition returned (c : control) : bool :=
  match c with
  | Return => true
  | _ => false
  end.

Lemma match_rules_accounted (filepath : string) (stop : bool) (now : Q)
    (line : string) (s : session) (rules : list CompiledRule) (w : world) :
  exists d,
    trace (match_rules net filepath stop now line s rules w).2 = trace w ++ d /\
    accounted stop
      (returned (match_rules net filepath stop now line s rules w).1) d.
Proof.
  revert w. induction rules as [|r rules IH]; intros w.
  - exists []. simpl. rewrite app_nil_r. split; [done|].
    by apply accounted_quiet.
  - cbn [match_rules]. destruct (re_search (pattern r) line) as [m|]; [|apply IH].
    set (w1 := write_log "RuleMatched" "INFO"
                 (rule_matched_details filepath line s r) w).
    destruct (known_item_id s) as [c|].
    + destruct (fire_or_skip_trace net filepath now c (sess_name s) r w1)
        as [d1 [Ht1 [Ha1 Hp1]]].
      pose proof (fire_or_skip_control net filepath now c (sess_name s) r w1)
        as Hctl.
      destruct (fire_or_skip net filepath now c (sess_name s) r w1) as [ctl w2].
      simpl in Hctl, Ht1.
      assert (forall stopped,
                (stopped = false -> can_fire c r now w1 = false) ->
                exists d, trace w2 = trace w ++ d /\
                          accounted stop stopped d) as Hhere.
      { intros stopped Hcf. eexists (ELog _ :: d1). rewrite Ht1.
        unfold w1; simpl. rewrite <- app_assoc. split; [done|].
        apply (accounted_quiet_app _ _ [_]); [done|done|].
        unfold accounted. rewrite Ha1.
        destruct (can_fire c r now w1); simpl in *; [|by auto with lia].
        split; [lia|]. intros _. split; [lia|]. intros Hs.
        by specialize (Hcf Hs). }
      destruct ctl as [| |e]; simpl;
        [|by apply Hhere|
         apply Hhere; intros _;
         by destruct (can_fire c r now w1)].
      destruct stop; [by apply Hhere|].
      * destruct (IH w2) as [d2 [Ht2 [Hp2 _]]].
        eexists (ELog _ :: d1 ++ d2). rewrite Ht2, Ht1. unfold w1; simpl.
        rewrite <- !app_assoc. split; [done|].
        apply (accounted_quiet_app _ _ [_]); [done|done|].
        split; [|done]. rewrite actions_called_app, posts_app, !length_app, Ha1.
        destruct (can_fire c r now w1); simpl in *; lia.
    + destruct (IH (write_log "ActionSkippedNoItemId" "WARN"
                      (skipped_no_item_id_details filepath r) w1))
        as [d2 [Ht2 Hacc]].
      eexists (ELog _ :: ELog _ :: d2). rewrite Ht2. unfold w1; simpl.
      rewrite <- !app_assoc. split; [done|].
      by apply (accounted_quiet_app _ _ [_; _]).
Qed.

Lemma tail_step_accounted (filepath : string) (timeout : Z)
    (rules : list CompiledRule) (stop : bool) (start : Q) (tk : tick)
    (s : session) (w : world) :
  exists d,
    trace (step_world
             (tail_step net filepath timeout rules stop start tk s w))
      = trace w ++ d /\
    accounted stop
      (step_stopped (tail_step net filepath timeout rules stop start tk s w)) d.
Proof.
  unfold tail_step.
  destruct (housekeeping_quiet rules tk w) as [_ [d0 [Ht0 [Ha0 Hp0]]]].
  destruct (elapsed (tk_now tk) start timeout).
  { eexists (d0 ++ [ELog _]). simpl. rewrite Ht0, <- app_assoc.
    split; [done|]. by apply accounted_quiet_app, accounted_quiet. }
  destruct (tk_readline tk) as [e|line].
  { eexists (d0 ++ [ELog _]). simpl. rewrite Ht0, <- app_assoc.
    split; [done|]. by apply accounted_quiet_app, accounted_quiet. }
  destruct (String.eqb line "").
  { eexists (d0 ++ [_]). simpl. rewrite Ht0, <- app_assoc.
    split; [done|]. by apply accounted_quiet_app, accounted_quiet. }
  destruct (match_rules_accounted filepath stop (tk_now tk) line
              (scan_line line s) rules (housekeeping rules tk w))
    as [d1 [Ht1 Hacc]].
  destruct (match_rules _ _ _ _ _ _ _ _) as [[| |e] w3];
    simpl in Ht1, Hacc; simpl.
  - exists (d0 ++ d1). rewrite Ht1, Ht0, <- app_assoc. split; [done|].
    by apply accounted_quiet_app.
  - exists (d0 ++ d1). rewrite Ht1, Ht0, <- app_assoc. split; [done|].
    by apply accounted_quiet_app.
  - eexists (d0 ++ d1 ++ [ELog _]). rewrite Ht1, Ht0, <- !app_assoc.
    split; [done|]. apply accounted_quiet_app; [done|done|].
    by apply accounted_app_quiet.
Qed.

Lemma tail_loop_accounted (filepath : string) (timeout : Z)
    (rules : list CompiledRule) (stop : bool) (start : Q)
    (ticks : list tick) (s : session) (w : world) :
  exists d,
    trace (tail_loop net filepath timeout rules stop start ticks s w).2
      = trace w ++ d /\
    accounted stop
      (is_stop (tail_loop net filepath timeout rules stop start ticks s w).1.1)
      d.
Proof.
  revert s w. induction ticks as [|tk ticks IH]; intros s w; cbn [tail_loop].
  - exists []. simpl. rewrite app_nil_r. split; [done|].
    by apply accounted_quiet.
  - destruct (tail_step_accounted filepath timeout rules stop start tk s w)
      as [d1 [Ht1 Hacc1]].
    destruct (tail_step _ _ _ _ _ _ _ _ _) as [s1 w1|e s1 w1];
      simpl in Ht1, Hacc1; simpl.
    + destruct (IH s1 w1) as [d2 [Ht2 Hacc2]].
      exists (d1 ++ d2). rewrite Ht2, Ht1, <- app_assoc. split; [done|].
      destruct Hacc1 as [Hp1 Hs1], Hacc2 as [Hp2 Hs2].
      split.
      * rewrite actions_called_app, posts_app, !length_app. lia.
      * intros ->. destruct (Hs1 eq_refl) as [_ Hq1], (Hs2 eq_refl) as [Hle Hq2].
        rewrite actions_called_app, Hq1 by done. by split.
    + by exists d1.
Qed.



Lemma tail_file_accounted (filepath : string) (timeout : Z)
    (rules : list CompiledRule) (global_cfg : GlobalCfg) (start : Q)
    (opened : open_result unit) (ticks : list tick) (w : world) :
  let run := tail_file net filepath timeout rules global_cfg start opened
               ticks w in
  exists d,
    trace run.2 =
      trace w ++
      ELog {| lr_level := "INFO"; lr_event := "WatchStart";
              lr_details := [("file", DStr (base filepath));
                             ("timeout_s", DInt timeout)] |} :: d /\
    accounted (py_bool (default (PBool true) (stop_on_first_action global_cfg)))
      (is_stop run.1.1) d.
Proof.
  unfold tail_file. destruct opened as [|e|u]; simpl.
  - eexists [_]. rewrite <- app_assoc. split; [done|]. by apply accounted_quiet.
  - eexists [_]. rewrite <- app_assoc. split; [done|]. by apply accounted_quiet.
  - destruct (tail_loop_accounted filepath timeout rules
                (py_bool (default (PBool true) (stop_on_first_action global_cfg)))
                start ticks {| sess_item_id := None; sess_name := None |}
                (write_log "WatchStart" "INFO"
                   [("file", DStr (base filepath)); ("timeout_s", DInt timeout)] w))
      as [d [Ht Hacc]].
    exists d. rewrite Ht. simpl. by rewrite <- app_assoc.
Qed.

(** X5. With [stop_on_first_action], a whole session dispatches at most one
    action and sends at most one request, and none at all unless it ends
    through the stop exit: a session that times out, fails or is still
    running has fired nothing. *)
Theorem stop_session_fires_at_most_once (filepath : string) (timeout : Z)
    (rules : list CompiledRule) (global_cfg : GlobalCfg) (start : Q)
    (opened : open_result unit) (ticks : list tick) (w : world) :
  py_bool (default (PBool true) (stop_on_first_action global_cfg)) = true ->
  let run := tail_file net filepath timeout rules global_cfg start opened
               ticks w in
  exists d,
    trace run.2 = trace w ++ d /\
    (length (posts d) <= length (actions_called d) <= 1)%nat /\
    (run.1.1 <> ExitStop -> actions_called d = [] /\ posts d = []).
Proof.
  intros Hstop run.
  destruct (tail_file_accounted filepath timeout rules global_cfg start
              opened ticks w) as [d [Ht [Hp Hs]]].
  fold run in Ht, Hs. rewrite Hstop in Hs. destruct (Hs eq_refl) as [Hle Hq].
  eexists (_ :: d). split; [exact Ht|]. simpl. split; [lia|].
  intros Hne. assert (is_stop run.1.1 = false) as Hf
    by (by destruct run.1.1).
  specialize (Hq Hf). rewrite Hq in Hp. simpl in Hp. split; [done|].
  destruct (posts d); [done|simpl in Hp; lia].
Qed.

(** X7. A session only appends to the trace, its first record is
    [WatchStart] with the base name of the file and the watch duration, and
    it never sends a request that is not logged: what it appends holds at
    least as many [ActionCalled] records as requests. This holds whatever
    the settings, the rules and the way the session ends. *)
Theorem session_appends_and_logs_requests (filepath : string) (timeout : Z)
    (rules : list CompiledRule) (global_cfg : GlobalCfg) (start : Q)
    (opened : open_result unit) (ticks : list tick) (w : world) :
  let run := tail_file net filepath timeout rules global_cfg start opened
               ticks w in
  exists d,
    trace run.2 =
      trace w ++
      ELog {| lr_level := "INFO"; lr_event := "WatchStart";
              lr_details := [("file", DStr (base filepath));
                             ("timeout_s", DInt timeout)] |} :: d /\
    (length (posts d) <= length (actions_called d))%nat.
Proof.
  intros run.
  destruct (tail_file_accounted filepath timeout rules global_cfg start
              opened ticks w) as [d [Ht [Hp _]]].
  by exists d.
Qed.

(** ** Sessions that match nothing *)

Lemma match_rules_no_match (filepath : string) (stop : bool) (now : Q)
    (line : string) (s : session) (rules : list CompiledRule) (w : world) :
  Forall (λ r, re_search (pattern r) line = None) rules ->
  match_rules net filepath stop now line s rules w = (Continue, w).
Proof.
  induction 1 as [|r rules Hr _ IH]; [done|].
  cbn [match_rules]. by rewrite Hr.
Qed.

Lemma cleanup_cache_subseteq (now : Q) (rules : list CompiledRule) (w : world) :
  recent_refresh (cleanup_cache now rules w) ⊆ recent_refresh w.
Proof.
  apply map_subseteq_spec. intros k ts. rewrite cleanup_cache_lookup.
  destruct (recent_refresh w !! k) as [ts'|]; [|done].
  by destruct (elapsed now ts' (ttl_of rules k.2)).
Qed.

Lemma tail_step_no_match (filepath : string) (timeout : Z)
    (rules : list CompiledRule) (stop : bool) (start : Q) (tk : tick)
    (s : session) (w : world) :
  (forall line, tk_readline tk = inr line ->
     Forall (λ r, re_search (pattern r) line = None) rules) ->
  let st := tail_step net filepath timeout rules stop start tk s w in
  step_stopped st = false /\
  actions_called (trace (step_world st)) = actions_called (trace w) /\
  posts (trace (step_world st)) = posts (trace w) /\
  recent_refresh (step_world st) ⊆ recent_refresh w.
Proof.
  intros Hno. unfold tail_step.
  destruct (housekeeping_quiet rules tk w) as [Hc [d0 [Ht0 [Ha0 Hp0]]]].
  pose proof (cleanup_cache_subseteq (tk_now tk) rules w) as Hsub.
  rewrite <- Hc in Hsub.
  assert (actions_called (trace (housekeeping rules tk w))
          = actions_called (trace w)) as Ha
    by (by rewrite Ht0, actions_called_app, Ha0, app_nil_r).
  assert (posts (trace (housekeeping rules tk w)) = posts (trace w)) as Hp
    by (by rewrite Ht0, posts_app, Hp0, app_nil_r).
  destruct (elapsed (tk_now tk) start timeout).
  { simpl. by rewrite actions_called_app, posts_app, Ha, Hp, !app_nil_r. }
  destruct (tk_readline tk) as [e|line].
  { simpl. by rewrite actions_called_app, posts_app, Ha, Hp, !app_nil_r. }
  destruct (String.eqb line "").
  { simpl. by rewrite actions_called_app, posts_app, Ha, Hp, !app_nil_r. }
  by rewrite match_rules_no_match by (by apply Hno).
Qed.

(** X8. A session in which no line read matches any rule (so also every
    session with an empty rule list, as after a failed load) performs no
    action, sends no request and never ends through the stop exit; the only
    thing it does to the rate-limit cache is to sweep expired entries out of
    it. *)
Theorem session_without_match_is_inert (filepath : string) (timeout : Z)
    (rules : list CompiledRule) (global_cfg : GlobalCfg) (start : Q)
    (opened : open_result unit) (ticks : list tick) (w : world) :
  Forall (λ tk, forall line, tk_readline tk = inr line ->
            Forall (λ r, re_search (pattern r) line = None) rules) ticks ->
  let run := tail_file net filepath timeout rules global_cfg start opened
               ticks w in
  run.1.1 <> ExitStop /\
  actions_called (trace run.2) = actions_called (trace w) /\
  posts (trace run.2) = posts (trace w) /\
  recent_refresh run.2 ⊆ recent_refresh w.
Proof.
  intros Hno. unfold tail_file.
  destruct opened as [|e|u]; simpl.
  - by rewrite !actions_called_app, !posts_app, !app_nil_r.
  - by rewrite !actions_called_app, !posts_app, !app_nil_r.
  - set (w0 := write_log "WatchStart" "INFO" _ w).
    assert (actions_called (trace w0) = actions_called (trace w) /\
            posts (trace w0) = posts (trace w) /\
            recent_refresh w0 ⊆ recent_refresh w) as Hw0.
    { unfold w0; simpl.
      by rewrite !actions_called_app, !posts_app, !app_nil_r. }
    clearbody w0. revert Hw0.
    generalize {| sess_item_id := None; sess_name := None |}.
    revert w0. induction Hno as [|tk ticks Htk _ IH]; intros w0 s0 Hw0.
    + by split.
    + cbn [tail_loop].
      destruct (tail_step_no_match filepath timeout rules
                  (py_bool (default (PBool true)
                     (stop_on_first_action global_cfg)))
                  start tk s0 w0 Htk) as (Hst & Ha & Hp & Hsub).
      destruct Hw0 as (Ha0 & Hp0 & Hsub0).
      destruct (tail_step _ _ _ _ _ _ _ _ _) as [s1 w1|e s1 w1];
        simpl in Hst, Ha, Hp, Hsub.
      * apply IH. rewrite Ha, Hp. repeat split; try done. by etrans.
      * simpl. rewrite Ha, Hp. repeat split; try done.
        -- by destruct e.
        -- by etrans.
Qed.

(** ** A line matched by several rules, without [stop_on_first_action] *)






Lemma fire_or_skip_lookup (filepath : string) (now : Q) (c : string)
    (nm : option string) (r : CompiledRule) (w : world) (k : string * string) :
  recent_refresh (fire_or_skip net filepath now c nm r w).2 !! k =
  if can_fire c r now w && bool_decide (k = (c, name r)) then Some now
  else recent_refresh w !! k.
Proof.
  rewrite fire_or_skip_cache. destruct (can_fire c r now w); [|done].
  simpl. case_bool_decide as Hk.
  - subst k. by rewrite lookup_insert_eq.
  - by rewrite lookup_insert_ne.
Qed.


(** ** Where the entries of the cache come from *)

Lemma match_rules_provenance (filepath : string) (stop : bool) (now : Q)
    (line : string) (s : session) (rules : list CompiledRule) (w : world)
    (k : string * string) (ts : Q) :
  recent_refresh (match_rules net filepath stop now line s rules w).2 !! k
    = Some ts ->
  recent_refresh w !! k = Some ts \/
  (ts = now /\ exists r, r ∈ rules /\ k.2 = name r).
Proof.
  revert w. induction rules as [|r rules IH]; intros w; [by left|].
  assert (forall w0,
            recent_refresh
              (match_rules net filepath stop now line s rules w0).2 !! k
              = Some ts ->
            recent_refresh w0 !! k = Some ts \/
            (ts = now /\ exists r0, r0 ∈ r :: rules /\ k.2 = name r0)) as IH'.
  { intros w0 H. apply IH in H as [H|[-> [r0 [Hr0 Hk]]]]; [by left|].
    right. split; [done|]. exists r0. split; [by right|done]. }
  cbn [match_rules]. destruct (re_search (pattern r) line) as [m|]; [|apply IH'].
  destruct (known_item_id s) as [c|]; [|intros H; by apply IH' in H].
  set (w1 := write_log "RuleMatched" "INFO"
               (rule_matched_details filepath line s r) w).
  pose proof (fire_or_skip_lookup filepath now c (sess_name s) r w1 k) as Hlk.
  destruct (fire_or_skip net filepath now c (sess_name s) r w1) as [ctl w2].
  simpl in Hlk.
  change (recent_refresh w1) with (recent_refresh w) in Hlk.
  assert (recent_refresh w2 !! k = Some ts ->
          recent_refresh w !! k = Some ts \/
          (ts = now /\ exists r0, r0 ∈ r :: rules /\ k.2 = name r0)) as Hw2.
  { rewrite Hlk. destruct (can_fire c r now w1); simpl; [|by left].
    case_bool_decide as Hk; [|by left].
    intros [= <-]. right. split; [done|]. exists r. subst k.
    split; [by left|done]. }
  destruct ctl as [| |e]; simpl; [|done|done].
  destruct stop; simpl; [done|].
  intros H. apply IH' in H as [H|H]; [by apply Hw2|by right].
Qed.

Lemma tail_step_provenance (filepath : string) (timeout : Z)
    (rules : list CompiledRule) (stop : bool) (start : Q) (tk : tick)
    (s : session) (w : world) (k : string * string) (ts : Q) :
  recent_refresh
    (step_world (tail_step net filepath timeout rules stop start tk s w)) !! k
    = Some ts ->
  recent_refresh w !! k = Some ts \/
  (ts = tk_now tk /\ exists r, r ∈ rules /\ k.2 = name r).
Proof.
  unfold tail_step.
  destruct (housekeeping_quiet rules tk w) as [Hc _].
  assert (recent_refresh (housekeeping rules tk w) !! k = Some ts ->
          recent_refresh w !! k = Some ts) as Hhk.
  { rewrite Hc. intros H.
    by apply (lookup_weaken _ _ _ _ H), cleanup_cache_subseteq. }
  destruct (elapsed (tk_now tk) start timeout); [by left; apply Hhk|].
  destruct (tk_readline tk) as [e|line]; [by left; apply Hhk|].
  destruct (String.eqb line ""); [by left; apply Hhk|].
  pose proof (match_rules_provenance filepath stop (tk_now tk) line
                (scan_line line s) rules (housekeeping rules tk w) k ts) as H.
  destruct (match_rules _ _ _ _ _ _ _ _) as [[| |e] w3]; simpl in *;
    intros H3; apply H in H3 as [H3|H3]; auto.
Qed.

(** X9. A session writes the cache only by marking firings: an entry found
    after a session either was there before with the same time stamp, or
    carries the clock reading of one of the passes of that session under the
    name of one of its rules. *)
Theorem session_cache_provenance (filepath : string) (timeout : Z)
    (rules : list CompiledRule) (global_cfg : GlobalCfg) (start : Q)
    (opened : open_result unit) (ticks : list tick) (w : world)
    (k : string * string) (ts : Q) :
  recent_refresh
    (tail_file net filepath timeout rules global_cfg start opened ticks w).2
    !! k = Some ts ->
  recent_refresh w !! k = Some ts \/
  exists tk r, tk ∈ ticks /\ r ∈ rules /\ ts = tk_now tk /\ k.2 = name r.
Proof.
  unfold tail_file. destruct opened as [|e|u]; [by left|by left|].
  change (recent_refresh w) with
    (recent_refresh
       (write_log "WatchStart" "INFO"
          [("file", DStr (base filepath)); ("timeout_s", DInt timeout)] w)).
  generalize (write_log "WatchStart" "INFO"
                [("file", DStr (base filepath)); ("timeout_s", DInt timeout)] w).
  generalize {| sess_item_id := None; sess_name := None |}.
  induction ticks as [|tk ticks IH]; intros s0 w0; cbn [tail_loop]; [by left|].
  pose proof (tail_step_provenance filepath timeout rules
                (py_bool (default (PBool true) (stop_on_first_action global_cfg)))
                start tk s0 w0 k ts) as Hst.
  assert (recent_refresh
            (step_world
               (tail_step net filepath timeout rules
                  (py_bool (default (PBool true)
                     (stop_on_first_action global_cfg))) start tk s0 w0)) !! k
            = Some ts ->
          recent_refresh w0 !! k = Some ts \/
          exists tk0 r, tk0 ∈ tk :: ticks /\ r ∈ rules /\
                        ts = tk_now tk0 /\ k.2 = name r) as Hst'.
  { intros H. apply Hst in H as [H|[-> [r [Hr Hk]]]]; [by left|].
    right. exists tk, r. split; [by left|done]. }
  destruct (tail_step _ _ _ _ _ _ _ _ _) as [s1 w1|e s1 w1]; simpl in *.
  - intros H. apply IH in H as [H|(tk0 & r & Htk & Hr & Hts & Hk)].
    + by apply Hst'.
    + right. exists tk0, r. split; [by right|done].
  - apply Hst'.
Qed.

(** ** More on the rule compiler *)

Lemma compile_partition (rules : list Rule) :
  (length (omap compiled_of rules) + length (rules ≫= compile_error_record)
   = length rules)%nat.
Proof.
  induction rules as [|r rules IH]; [done|].
  cbn [omap list_omap mbind list_bind]. rewrite length_app.
  unfold compiled_of at 1, compile_error_record at 1.
  destruct (compile_rule r); simpl; lia.
Qed.

(** X10. When rules.json parses, every entry of its rule list is accounted
    for exactly once: it is either compiled or reported by a
    [RuleCompileError] record at level ERROR carrying that entry, so the
    compiled rules and the error records together are as many as the
    entries; the [count] of the closing [RulesLoaded] record is the number
    of compiled rules, and the rate-limit cache is not touched. *)
Theorem load_rules_accounts_for_every_entry (text : string) (cfg : config)
    (w : world) :
  json_load text = inr cfg ->
  let entries := default [] (cfg_rules cfg) in
  let out := load_rules (Opened text) w in
  exists errs,
    trace out.2 =
      trace w ++ errs ++
      [ELog {| lr_level := "INFO"; lr_event := "RulesLoaded";
               lr_details :=
                 [("count", DInt (Z.of_nat (length out.1.1)))] |}] /\
    (length out.1.1 + length errs = length entries)%nat /\
    Forall (λ e, exists r exn,
              r ∈ entries /\
              e = ELog {| lr_level := "ERROR"; lr_event := "RuleCompileError";
                          lr_details := [("rule", DRule r);
                                         ("error", DExn exn)] |}) errs /\
    recent_refresh out.2 = recent_refresh w.
Proof.
  intros Hload entries out. unfold out, load_rules. rewrite Hload.
  fold entries. rewrite compile_rules_spec. simpl.
  exists (entries ≫= compile_error_record).
  split; [by rewrite <- app_assoc|]. split; [apply compile_partition|].
  split; [|done]. apply Forall_forall. intros e He.
  apply list_elem_of_bind in He as [r [He Hr]].
  unfold compile_error_record in He.
  destruct (compile_rule r) as [exn|c]; [|by apply elem_of_nil in He].
  apply list_elem_of_singleton in He. by exists r, exn.
Qed.

(** ** The directory watcher: [NewLogFileHandler.on_created] *)

Definition WATCH_SECONDS : Z := 5.
Definition FILE_EXTS : list string := [".log"; ".txt"].
Definition EXCLUDE_PATTERNS : list string := ["graph.txt"].

(** [pat in filename] *)
Fixpoint contains (pat s : string) : bool :=
  match s with
  | EmptyString => String.prefix pat EmptyString
  | String _ s' => String.prefix pat s || contains pat s'
  end.

Definition is_excluded (filename : string) : bool :=
  existsb (λ pat, contains pat filename) EXCLUDE_PATTERNS.

(** [str.lower] on ASCII text. *)
Definition lower_char (c : ascii) : ascii :=
  let n := nat_of_ascii c in
  if (65 <=? n)%nat && (n <=? 90)%nat then ascii_of_nat (n + 32) else c.

Fixpoint lower (s : string) : string :=
  match s with
  | EmptyString => EmptyString
  | String c s' => String (lower_char c) (lower s')
  end.

(** [s.endswith(suffix)] *)
Fixpoint endswith (s suffix : string) : bool :=
  String.eqb s suffix ||
  match s with
  | EmptyString => false
  | String _ s' => endswith s' suffix
  end.

(** The file-system event handed over by the observer. *)
Record event := {
  is_directory : bool;
  src_path : string
}.

(** [on_created], for a handler holding [compiled_rules] and [global_cfg];
    the last four arguments are what the session it may start observes and
    the world it runs in. *)
Definition on_created (compiled_rules : list CompiledRule)
    (global_cfg : GlobalCfg) (ev : event) (start : Q)
    (opened : open_result unit) (ticks : list tick) (w : world) : world :=
  if is_directory ev then w
  else
    let filename := base (src_path ev) in
    if is_excluded filename then w
    else if existsb (endswith (lower (src_path ev))) FILE_EXTS then
      let w1 :=
        write_log "NewFileDetected" "INFO"
          [("file", DStr (base (src_path ev)))] w in
      (tail_file net (src_path ev) WATCH_SECONDS compiled_rules global_cfg
         start opened ticks w1).2
    else w.

Fixpoint no_slash (s : string) : bool :=
  match s with
  | EmptyString => true
  | String c s' => negb (Ascii.eqb c "/"%char) && no_slash s'
  end.

Lemma base_aux_no_slash (acc s : string) :
  no_slash s = true -> base_aux acc s = acc.
Proof.
  induction s as [|c s IH]; [done|]. simpl.
  destruct (Ascii.eqb c "/"%char); [done|]. apply IH.
Qed.

Lemma base_aux_app (x acc y : string) :
  no_slash y = true ->
  base_aux (acc +:+ y) (x +:+ y) = base_aux acc x +:+ y.
Proof.
  intros Hy. revert acc. induction x as [|c x IH]; intros acc; simpl.
  - by apply base_aux_no_slash.
  - destruct (Ascii.eqb c "/"%char); apply IH.
Qed.

Lemma base_app (x y : string) :
  no_slash y = true -> base (x +:+ y) = base x +:+ y.
Proof. intros Hy. unfold base. by apply base_aux_app. Qed.

Lemma prefix_app (p v : string) : String.prefix p (p +:+ v) = true.
Proof.
  induction p as [|a p IH]; simpl; [by destruct v|].
  by destruct (ascii_dec a a).
Qed.

Lemma contains_app (p u v : string) : contains p (u +:+ p +:+ v) = true.
Proof.
  induction u as [|c u IH].
  - change (EmptyString +:+ p +:+ v) with (p +:+ v).
    pose proof (prefix_app p v) as Hp.
    destruct (p +:+ v); cbn [contains]; [done|]. by rewrite Hp.
  - change (String c u +:+ p +:+ v) with (String c (u +:+ p +:+ v)).
    cbn [contains]. rewrite IH. apply orb_true_r.
Qed.

(** X11. A created file whose name holds [graph.txt] anywhere after the last
    slash of its path is never tailed, whatever comes before or after it in
    the name (a [.log] or [.txt] extension included) and whatever the
    directory: [on_created] returns without logging or doing anything. *)
Theorem excluded_name_is_never_tailed (compiled_rules : list CompiledRule)
    (global_cfg : GlobalCfg) (ev : event) (start : Q)
    (opened : open_result unit) (ticks : list tick) (w : world)
    (before after : string) :
  src_path ev = before +:+ "graph.txt" +:+ after ->
  no_slash after = true ->
  on_created compiled_rules global_cfg ev start opened ticks w = w.
Proof.
  intros Hpath Hafter. unfold on_created.
  destruct (is_directory ev); [done|].
  assert (is_excluded (base (src_path ev)) = true) as ->; [|done].
  rewrite Hpath, base_app by exact Hafter.
  unfold is_excluded, EXCLUDE_PATTERNS. cbn [existsb].
  by rewrite contains_app.
Qed.

(** ** Sessions without [stop_on_first_action] *)

Lemma match_rules_no_stop_no_return (filepath : string) (now : Q)
    (line : string) (s : session) (rules : list CompiledRule) (w : world) :
  (match_rules net filepath false now line s rules w).1 <> Return.
Proof.
  revert w. induction rules as [|r rules IH]; intros w; [done|].
  cbn [match_rules]. destruct (re_search (pattern r) line) as [m|]; [|apply IH].
  destruct (known_item_id s) as [c|]; [|apply IH].
  pose proof (fire_or_skip_not_return net filepath now c (sess_name s) r
    (write_log "RuleMatched" "INFO"
       (rule_matched_details filepath line s r) w)) as Hc.
  destruct (fire_or_skip _ _ _ _ _ _ _) as [[| |e] w2]; simpl in *;
    [apply IH|done|done].
Qed.

(** X12. When the global settings give [stop_on_first_action] a false value,
    no session ever leaves through the stop exit, however many rules fire:
    it ends by the deadline, by a missing file or through the error exit,
    or is still running. *)
Theorem session_without_stop_flag_never_stops (filepath : string)
    (timeout : Z) (rules : list CompiledRule) (global_cfg : GlobalCfg)
    (start : Q) (opened : open_result unit) (ticks : list tick) (w : world) :
  py_bool (default (PBool true) (stop_on_first_action global_cfg)) = false ->
  (tail_file net filepath timeout rules global_cfg start opened ticks w).1.1
    <> ExitStop.
Proof.
  intros Hstop. unfold tail_file. rewrite Hstop.
  destruct opened as [|e|u]; [done|done|].
  generalize {| sess_item_id := None; sess_name := None |}.
  generalize (write_log "WatchStart" "INFO"
                [("file", DStr (base filepath)); ("timeout_s", DInt timeout)] w).
  induction ticks as [|tk ticks IH]; intros w0 s0; cbn [tail_loop]; [done|].
  destruct (tail_step _ _ _ _ _ _ _ _ _) as [s1 w1|e s1 w1] eqn:Hst;
    [apply IH|]. simpl. intros ->.
  unfold tail_step in Hst.
  destruct (elapsed (tk_now tk) start timeout); [done|].
  destruct (tk_readline tk) as [e|line]; [done|].
  destruct (String.eqb line ""); [done|].
  pose proof (match_rules_no_stop_no_return filepath (tk_now tk) line
                (scan_line line s0) rules (housekeeping rules tk w0)) as Hc.
  by destruct (match_rules _ _ _ _ _ _ _ _) as [[| |e] w3].
Qed.

(** ** The window across sessions *)

(** X13. The window holds from one session to the next. Let the cache
    record that rule [r] fired for item [c] at time [t], let rule names be
    distinct, and let a pass of a session with [stop_on_first_action] read,
    at time [now], a line whose first matching rule is [r] while the item id
    is [c]. The pass ends the session. If [now - t] is less than the window
    of [r], nothing is dispatched and the entry still says [t]; the session
    leaves through the stop exit, or through the error exit when the window
    is out of the range of a float. If the window has gone by, the pass
    dispatches one action, the entry says [now] and the session leaves
    through the stop exit. The sweep at the head of the pass changes neither
    outcome. *)
Theorem window_holds_across_sessions (filepath : string) (timeout : Z)
    (start : Q) (tk : tick) (s : session) (w : world) (line c : string)
    (pre post : list CompiledRule) (r : CompiledRule) (t : Q) :
  NoDup (name <$> pre ++ r :: post) ->
  recent_refresh w !! (c, name r) = Some t ->
  elapsed (tk_now tk) start timeout = false ->
  tk_readline tk = inr line ->
  line <> "" ->
  known_item_id (scan_line line s) = Some c ->
  Forall (λ r', re_search (pattern r') line = None) pre ->
  is_Some (re_search (pattern r) line) ->
  let now := tk_now tk in
  exists e w',
    tail_step net filepath timeout (pre ++ r :: post) true start tk s w
      = Exit e (scan_line line s) w' /\
    ((now - t < inject_Z (rate_limit_seconds r))%Q ->
       e = (if fits_float (rate_limit_seconds r) then ExitStop
            else ExitError) /\
       actions_called (trace w') = actions_called (trace w) /\
       posts (trace w') = posts (trace w) /\
       recent_refresh w' !! (c, name r) = Some t) /\
    ((inject_Z (rate_limit_seconds r) <= now - t)%Q ->
       e = ExitStop /\
       length (actions_called (trace w')) =
         S (length (actions_called (trace w))) /\
       recent_refresh w' !! (c, name r) = Some now).
Proof.
  intros Hnd Hentry He Hr Hne Hid Hpre Hm now.
  rewrite (tail_step_first_match net _ _ _ _ _ _ line c) by done.
  set (rules := pre ++ r :: post) in *. fold now.
  destruct (housekeeping_quiet rules tk w) as [Hc [d [Ht [Ha Hp]]]].
  set (wm := write_log "RuleMatched" "INFO" _ _).
  assert (r ∈ rules) as Hin by (unfold rules; set_solver).
  assert (recent_refresh wm !! (c, name r) =
          if elapsed now t (rate_limit_seconds r) then None else Some t)
    as Hlookup.
  { unfold wm; simpl. rewrite Hc, cleanup_cache_lookup, Hentry. simpl.
    by rewrite (ttl_of_unique rules r Hnd Hin). }
  assert (can_fire c r now wm = elapsed now t (rate_limit_seconds r)) as Hcf.
  { unfold can_fire. rewrite Hlookup.
    by destruct (elapsed now t (rate_limit_seconds r)) eqn:Hel. }
  destruct (elapsed now t (rate_limit_seconds r)) eqn:Hel.
  - rewrite Hcf. cbn [orb]. eexists; eexists. split; [reflexivity|]. split.
    + intros Hlt. apply elapsed_false_iff in Hlt. congruence.
    + intros _. split; [done|].
      destruct (fire_or_skip_trace net filepath now c
                  (sess_name (scan_line line s)) r wm) as [d1 [Ht1 [Ha1 _]]].
      rewrite Hcf in Ha1. split.
      * rewrite Ht1. unfold wm; simpl. rewrite Ht.
        rewrite !actions_called_app, Ha, Ha1, !length_app. simpl. lia.
      * rewrite fire_or_skip_lookup, Hcf. simpl.
        by rewrite bool_decide_eq_true_2.
  - destruct (fire_or_skip_limited net filepath now c
                (sess_name (scan_line line s)) r wm Hcf) as [ts [_ Hfo]].
    rewrite Hcf. cbn [orb]. rewrite Hfo.
    destruct (fits_float (rate_limit_seconds r)).
    + eexists; eexists. split; [reflexivity|]. split.
      * intros _. simpl. rewrite Ht, !actions_called_app, !posts_app, Ha, Hp.
        simpl. rewrite !app_nil_r. repeat split. exact Hlookup.
      * intros Hge. apply elapsed_iff in Hge. congruence.
    + eexists; eexists. split; [reflexivity|]. split.
      * intros _. simpl. rewrite Ht, !actions_called_app, !posts_app, Ha, Hp.
        simpl. rewrite !app_nil_r. repeat split. exact Hlookup.
      * intros Hge. apply elapsed_iff in Hge. congruence.
Qed.

End More.

(** ** The further properties at concrete inputs *)

Lemma cleanup_cache_later_sweep_absorbs_witness :
  (105 <= 111)%Q /\
  cleanup_cache 111 [ruleA] (cleanup_cache 105 [ruleA] (fired_at 100)) =
  cleanup_cache 111 [ruleA] (fired_at 100).
Proof.
  assert (105 <= 111)%Q as Hle by (vm_compute; discriminate).
  split; [exact Hle|].
  exact (@cleanup_cache_later_sweep_absorbs Toy.runtime 105 111 [ruleA]
           (fired_at 100) Hle).
Defined.

Lemma names_A_B_distinct : NoDup (name <$> [ruleA; ruleB]).
Proof.
  apply NoDup_cons. split.
  - intros Hin. apply list_elem_of_singleton in Hin. discriminate.
  - apply NoDup_singleton.
Defined.

Lemma cleanup_cache_keeps_can_fire_witness :
  can_fire "42" ruleA 103 (cleanup_cache 103 [ruleA; ruleB] (fired_at 100)) =
  can_fire "42" ruleA 103 (fired_at 100).
Proof.
  apply (@cleanup_cache_keeps_can_fire Toy.runtime 103 [ruleA; ruleB] ruleA
           "42" (fired_at 100) names_A_B_distinct).
  constructor.
Defined.



Lemma stop_session_fires_at_most_once_witness :
  exists d,
    trace (tail_file (RT:=Toy.runtime) net_ok logfile 5 [ruleA; ruleB]
             default_global 101 (Opened tt)
             [reads 102 line_id; reads 103 line_err] fresh).2 = [] ++ d /\
    (length (posts d) <= length (actions_called d) <= 1)%nat.
Proof.
  destruct (@stop_session_fires_at_most_once Toy.runtime net_ok logfile 5
              [ruleA; ruleB] default_global 101 (Opened tt)
              [reads 102 line_id; reads 103 line_err] fresh)
    as (d & Ht & Hle & _).
  - reflexivity.
  - exists d. split; [exact Ht|exact Hle].
Defined.


Lemma session_without_match_is_inert_witness :
  (tail_file (RT:=Toy.runtime) net_ok logfile 5 [ruleA; ruleB]
     default_global 101 (Opened tt)
     [reads 102 line_id; reads 103 "all is well"] (fired_at 100)).1.1
  <> ExitStop.
Proof.
  assert (Forall (λ tk, forall line, tk_readline tk = inr line ->
            Forall (λ r, re_search (pattern r) line = None) [ruleA; ruleB])
            [reads 102 line_id; reads 103 "all is well"]) as Hno.
  { apply List.Forall_cons; [|apply List.Forall_cons; [|apply List.Forall_nil]];
      intros line [= <-];
      (apply List.Forall_cons;
         [|apply List.Forall_cons; [|apply List.Forall_nil]]);
      vm_compute; reflexivity. }
  exact (proj1 (@session_without_match_is_inert Toy.runtime net_ok logfile 5
                  [ruleA; ruleB] default_global 101 (Opened tt)
                  [reads 102 line_id; reads 103 "all is well"] (fired_at 100)
                  Hno)).
Defined.

Lemma session_cache_provenance_witness :
  recent_refresh fresh !! ("42", "A") = Some 103%Q \/
  exists tk r,
    tk ∈ [reads 102 line_id; reads 103 line_err] /\ r ∈ [ruleA] /\
    103%Q = tk_now tk /\ ("42", "A").2 = name r.
Proof.
  apply (@session_cache_provenance Toy.runtime net_ok logfile 5 [ruleA]
           default_global 101 (Opened tt)
           [reads 102 line_id; reads 103 line_err] fresh ("42", "A") 103).
  reflexivity.
Defined.

Lemma load_rules_accounts_for_every_entry_witness :
  exists errs : list effect,
    (length (load_rules (RT:=Toy.runtime) (Opened Toy.rules_text) fresh).1.1
     + length errs = 3)%nat.
Proof.
  destruct (@load_rules_accounts_for_every_entry Toy.runtime Toy.rules_text
              Toy.rules_doc fresh) as (errs & _ & Hlen & _).
  - reflexivity.
  - exists errs. exact Hlen.
Defined.

Lemma excluded_name_is_never_tailed_witness :
  on_created (RT:=Toy.runtime) net_ok [ruleA] default_global
    {| is_directory := false;
       src_path := "/logs/ffmpeg_graph.txt.log" |}
    101 (Opened tt) [reads 102 line_id; reads 103 line_err] fresh
  = fresh.
Proof.
  apply (@excluded_name_is_never_tailed Toy.runtime net_ok [ruleA]
           default_global _ 101 (Opened tt)
           [reads 102 line_id; reads 103 line_err] fresh
           "/logs/ffmpeg_" ".log").
  - reflexivity.
  - reflexivity.
Defined.

Definition keeps_going : GlobalCfg :=
  {| stop_on_first_action := Some (PBool false);
     rule_reload_seconds := Some (PInt 60) |}.

Lemma session_without_stop_flag_never_stops_witness :
  (tail_file (RT:=Toy.runtime) net_ok logfile 5 [ruleA; ruleB] keeps_going
     101 (Opened tt) [reads 102 line_id; reads 103 line_err] fresh).1.1
  <> ExitStop.
Proof.
  apply (@session_without_stop_flag_never_stops Toy.runtime net_ok logfile 5
           [ruleA; ruleB] keeps_going 101 (Opened tt)
           [reads 102 line_id; reads 103 line_err] fresh).
  reflexivity.
Defined.

(** Rule A fired for item 42 at 100; a later session reads the error line
    at 103. *)
Lemma window_holds_across_sessions_witness :
  exists e w',
    tail_step (RT:=Toy.runtime) net_ok logfile 5 ([] ++ ruleA :: [ruleB])
      true 101 (reads 103 line_err) knows_42 (fired_at 100)
    = Exit e knows_42 w' /\
    e = ExitStop /\
    recent_refresh w' !! ("42", "A") = Some 100%Q.
Proof.
  destruct (@window_holds_across_sessions Toy.runtime net_ok logfile 5 101
              (reads 103 line_err) knows_42 (fired_at 100) line_err "42"
              [] [ruleB] ruleA 100 names_A_B_distinct)
    as (e & w' & Hstep & Hblocked & _).
  - reflexivity.
  - reflexivity.
  - reflexivity.
  - discriminate.
  - reflexivity.
  - constructor.
  - eexists. reflexivity.
  - exists e, w'. split; [exact Hstep|].
    destruct Hblocked as (He & _ & _ & Hentry); [vm_compute; reflexivity|].
    split; [exact He|exact Hentry].
Defined.
